(** * kube-plex: the remote transcode orchestrator of [main.go]

    A shallow embedding of [main.go] (package [main]) and the properties of
    its argument rewriter, environment translator, pod builder, lifecycle
    watcher and cleanup path.

    Go strings are modelled as [string], slices as [list] with explicit
    bounds checks (an out-of-range index is a run-time panic, as in Go),
    [log.Fatalf] and [panic] as constructors of an abort type, and the calls
    to the cluster API as events of a trace whose answers are read from an
    explicit description of the environment. *)

From Stdlib Require Import ZArith Lia Ascii.
From stdpp Require Import base list strings gmap.

(** ** Go strings: the functions of package [strings] that [main.go] calls *)

Module Strings.

Fixpoint length (s : string) : nat :=
  match s with
  | EmptyString => 0
  | String _ s' => S (length s')
  end.

(** [s[:n]] *)
Fixpoint take (n : nat) (s : string) : string :=
  match n, s with
  | S n', String c s' => String c (take n' s')
  | _, _ => EmptyString
  end.

(** [s[n:]] *)
Fixpoint drop (n : nat) (s : string) : string :=
  match n, s with
  | S n', String _ s' => drop n' s'
  | _, _ => s
  end.

(** [strings.HasPrefix(s, prefix)] *)
Fixpoint HasPrefix (s prefix : string) {struct prefix} : bool :=
  match prefix, s with
  | EmptyString, _ => true
  | String p prefix', String c s' => Ascii.eqb c p && HasPrefix s' prefix'
  | String _ _, EmptyString => false
  end.

(** [strings.Index(s, substr)]: the index of the first instance of [substr]
    in [s]; Go's [-1] is [None]. *)
Fixpoint Index (s substr : string) : option nat :=
  if HasPrefix s substr then Some 0
  else match s with
       | EmptyString => None
       | String _ s' => S <$> Index s' substr
       end.

(** [strings.Replace(s, old, new, 1)]: the first instance of [old] is
    replaced by [new]; without an instance [s] is returned as it is. *)
Definition Replace1 (s old new : string) : string :=
  match Index s old with
  | None => s
  | Some j => take j s +:+ new +:+ drop (j + length old) s
  end.

(** [strings.SplitN(s, sep, 2)] for a non-empty [sep]: at most two
    substrings, the second being the unsplit remainder. *)
Definition SplitN2 (s sep : string) : list string :=
  match Index s sep with
  | None => [s]
  | Some m => [take m s; drop (m + length sep) s]
  end.

(** [strings.Contains(s, substr)] *)
Definition Contains (s substr : string) : bool :=
  match Index s substr with Some _ => true | None => false end.

End Strings.

(** ** Abnormal termination *)

(** Go's [error] values, as far as [main.go] creates or receives them. *)
Inductive error : Type :=
  | ErrContextCancelled              (* fmt.Errorf("context cancelled") *)
  | ErrPodFailed (name : string)     (* fmt.Errorf("pod %q failed", pod.Name) *)
  | ErrNum (fn num : string) (range : bool)
                                     (* *strconv.NumError: ErrRange or ErrSyntax *)
  | ErrExternal (msg : string).      (* an error returned by a library call *)

(** The two results [(x, err)] of a call: a value, or a non-nil [err]. *)
Inductive Reply (A : Type) : Type :=
  | Success (a : A)
  | Failure (e : error).
Arguments Success {A} a.
Arguments Failure {A} e.

(** The same for a call that leaves the program (the operating system, the
    cluster API): its error is not one that [main.go] creates. *)
Inductive Call (A : Type) : Type :=
  | Returned (a : A)
  | Errored (msg : string).
Arguments Returned {A} a.
Arguments Errored {A} msg.

(** The argument of [log.Fatalf], by call site. *)
Inductive FatalMsg : Type :=
  | FatalGetwd (e : error)           (* "Error getting working directory: %s" *)
  | FatalKubeconfig (e : error)      (* "Error building kubeconfig: %s" *)
  | FatalClientset (e : error)       (* "Error building kubernetes clientset: %s" *)
  | FatalCreatePod (e : error)       (* "Error creating pod: %s" *)
  | FatalGetLogs (e : error)         (* "Error getting pod logs: %s" *)
  | FatalReadLogs (e : error)        (* "Error reading pod logs: %s" *)
  | FatalCleanup (e : error).        (* "error cleaning up pod: %s" *)

Inductive PanicValue : Type :=
  | IndexOutOfRange (i len : nat)    (* runtime error: index out of range [i] with length len *)
  | PanicError (e : error).          (* panic(err) *)

Inductive Abort : Type :=
  | Panic (p : PanicValue)           (* a panic that nothing recovers *)
  | Fatal (m : FatalMsg).            (* log.Fatalf: the message, then os.Exit(1) *)

Inductive Result (A : Type) : Type :=
  | Ok (a : A)
  | Aborted (x : Abort).
Arguments Ok {A} a.
Arguments Aborted {A} x.

Definition bindR {A B} (r : Result A) (f : A -> Result B) : Result B :=
  match r with
  | Ok a => f a
  | Aborted x => Aborted x
  end.

Declare Scope result_scope.
Delimit Scope result_scope with result.
Notation "'let*' x ':=' c 'in' k" := (bindR c (fun x => k))
  (at level 10, x name, c at level 100, k at level 200) : result_scope.
Open Scope result_scope.

(** A function rejects its input explicitly when it ends with a [panic] or
    a [log.Fatalf] of its own, as opposed to a panic of the Go runtime. *)
Definition rejectsExplicitly {A} (r : Result A) : Prop :=
  (exists e, r = Aborted (Panic (PanicError e))) \/ (exists m, r = Aborted (Fatal m)).

(** [s[i]] on a slice: a run-time panic when [i] is out of range. *)
Definition index {A} (s : list A) (i : nat) : Result A :=
  match s !! i with
  | Some x => Ok x
  | None => Aborted (Panic (IndexOutOfRange i (List.length s)))
  end.

(** [s[i] = x] on a slice, in place. *)
Definition assign {A} (s : list A) (i : nat) (x : A) : Result (list A) :=
  if decide (i < List.length s) then Ok (<[i:=x]> s)
  else Aborted (Panic (IndexOutOfRange i (List.length s))).

(** ** Configuration read from the process environment (the package-level
    variables of [main.go]) *)

Definition constDefaultLimitCPU : string := "100m".

Record Config : Type := {
  dataPVC : string;             (* DATA_PVC *)
  configPVC : string;           (* CONFIG_PVC *)
  transcodePVC : string;        (* TRANSCODE_PVC *)
  namespace : string;           (* KUBE_NAMESPACE *)
  pmsImage : string;            (* PMS_IMAGE *)
  pmsInternalAddress : string;  (* PMS_INTERNAL_ADDRESS *)
  limitCPU : string             (* LIMIT_CPU *)
}.

(** [setDefaults] assigns the package-level [limitCPU]. *)
Definition setDefaults (cfg : Config) : Config :=
  if String.eqb (limitCPU cfg) "" then
    {| dataPVC := dataPVC cfg; configPVC := configPVC cfg;
       transcodePVC := transcodePVC cfg; namespace := namespace cfg;
       pmsImage := pmsImage cfg; pmsInternalAddress := pmsInternalAddress cfg;
       limitCPU := constDefaultLimitCPU |}
  else cfg.

(** ** The invocation rewriter *)

(** [rewriteEnv]: no changes needed. *)
Definition rewriteEnv (in_ : list string) : list string := in_.

Definition loopback : string := "http://127.0.0.1:32400".

(** The two [case] lists of the [switch] in [rewriteArgs]. *)
Definition isURLFlag (v : string) : bool :=
  String.eqb v "-progressurl" || String.eqb v "-manifest_name"
  || String.eqb v "-segment_list".

Definition isVerbosityFlag (v : string) : bool :=
  String.eqb v "-loglevel" || String.eqb v "-loglevel_plex".

Definition isRecognizedFlag (v : string) : bool :=
  isURLFlag v || isVerbosityFlag v.

(** The body of the [range] loop at index [i]: [v] is read from the slice
    as it is when the iteration starts. *)
Definition rewriteArgs_body (addr : string) (i : nat) (v : string)
    (in_ : list string) : Result (list string) :=
  if isURLFlag v then
    let* x := index in_ (i + 1) in
    assign in_ (i + 1) (Strings.Replace1 x loopback addr)
  else if isVerbosityFlag v then
    assign in_ (i + 1) "debug"
  else Ok in_.

(** [n] iterations of the loop, starting at index [i]. *)
Fixpoint rewriteArgs_loop (addr : string) (n i : nat) (in_ : list string)
    : Result (list string) :=
  match n with
  | 0 => Ok in_
  | S n' =>
      match in_ !! i with
      | None => Ok in_
      | Some v =>
          let* in' := rewriteArgs_body addr i v in_ in
          rewriteArgs_loop addr n' (S i) in'
      end
  end.

(** [rewriteArgs(in)]; [addr] is the package-level [pmsInternalAddress]. The
    slice is rewritten in place: the result is its final content. *)
Definition rewriteArgs (addr : string) (in_ : list string) : Result (list string) :=
  rewriteArgs_loop addr (List.length in_) 0 in_.

(** What the pass writes into the slot that follows an element it visits as
    [prev], when that slot holds [x]. *)
Definition written (addr prev x : string) : string :=
  if isURLFlag prev then Strings.Replace1 x loopback addr
  else if isVerbosityFlag prev then "debug"
  else x.


(** ** The job spec builder *)

Record EnvVar : Type := { Name : string; Value : string }.

(** The iterations of the [range] loop of [toCoreV1EnvVar] over the entries
    [rest], the first of which has index [i]. *)
Fixpoint toCoreV1EnvVar_loop (rest : list string) (i : nat) (out : list EnvVar)
    : Result (list EnvVar) :=
  match rest with
  | [] => Ok out
  | v :: rest' =>
      let splitvar := Strings.SplitN2 v "=" in
      let* name := index splitvar 0 in
      let* value := index splitvar 1 in
      let* out' := assign out i {| Name := name; Value := value |} in
      toCoreV1EnvVar_loop rest' (S i) out'
  end.

Definition toCoreV1EnvVar (in_ : list string) : Result (list EnvVar) :=
  let out := replicate (List.length in_) {| Name := ""; Value := "" |} in
  toCoreV1EnvVar_loop in_ 0 out.

(** An entry is well formed when it has a ["="]. *)
Definition wellFormed (v : string) : bool := Strings.Contains v "=".

(** The pair of a well-formed entry: the text before its first ["="] and
    the text after it. *)
Definition pairOf (v : string) : EnvVar :=
  match Strings.Index v "=" with
  | Some m => {| Name := Strings.take m v; Value := Strings.drop (m + 1) v |}
  | None => {| Name := v; Value := "" |}
  end.

(** [strconv.ParseInt(s, 10, 64)]: an optional sign, then decimal digits
    only; the value must fit in 64 signed bits. *)
Definition digit (c : ascii) : option Z :=
  let n := Z.of_nat (nat_of_ascii c) in
  if (48 <=? n)%Z && (n <=? 57)%Z then Some (n - 48)%Z else None.

Fixpoint digits (s : string) (acc : Z) : option Z :=
  match s with
  | EmptyString => Some acc
  | String c s' =>
      match digit c with
      | Some d => digits s' (acc * 10 + d)%Z
      | None => None
      end
  end.

Definition ParseInt (s : string) : Reply Z :=
  let syntax := Failure (ErrNum "ParseInt" s false) in
  let range := Failure (ErrNum "ParseInt" s true) in
  let unsigned (neg : bool) (u : string) :=
    match u with
    | EmptyString => syntax
    | _ =>
        match digits u 0%Z with
        | None => syntax
        | Some un =>
            let cutoff := (2 ^ 63)%Z in
            if negb neg && (cutoff <=? un)%Z then range
            else if neg && (cutoff <? un)%Z then range
            else Success (if neg then (- un)%Z else un)
        end
    end in
  match s with
  | EmptyString => syntax
  | String "+" s' => unsigned false s'
  | String "-" s' => unsigned true s'
  | _ => unsigned false s
  end.

(** The closure [strToi64] of [generatePod]. *)
Definition strToi64 (s : string) : Result Z :=
  match ParseInt s with
  | Success n => Ok n
  | Failure err => Aborted (Panic (PanicError err))
  end.

Record VolumeMount : Type := {
  vm_Name : string; MountPath : string; ReadOnly : bool
}.

Record Volume : Type := {
  vol_Name : string;
  ClaimName : string   (* VolumeSource.PersistentVolumeClaim.ClaimName *)
}.

Definition ResourceCPU : string := "cpu".
Definition RestartPolicyNever : string := "Never".

(** [corev1.PodPhase] is a string type with five declared values. *)
Definition PodPhase : Type := string.
Definition PodPending : PodPhase := "Pending".
Definition PodRunning : PodPhase := "Running".
Definition PodSucceeded : PodPhase := "Succeeded".
Definition PodFailed : PodPhase := "Failed".
Definition PodUnknown : PodPhase := "Unknown".

Section Builder.

(** [resource.Quantity] and [resource.ParseQuantity] belong to the
    Kubernetes API machinery: the builder only passes the parsed quantity
    on, so both are taken as given. *)
Context {Quantity : Type}.
Variable ParseQuantity : string -> option Quantity.

(** [resource.MustParse]: panics when the string does not parse. *)
Definition MustParse (str : string) : Result Quantity :=
  match ParseQuantity str with
  | Some q => Ok q
  | None => Aborted (Panic (PanicError (ErrExternal "cannot parse quantity")))
  end.

Record Container : Type := {
  c_Name : string;
  Command : list string;
  Image : string;
  Env : list EnvVar;
  WorkingDir : string;
  Limits : gmap string Quantity;      (* Resources.Limits *)
  VolumeMounts : list VolumeMount
}.

Record Pod : Type := {
  GenerateName : string;              (* ObjectMeta.GenerateName *)
  pod_Name : string;                  (* ObjectMeta.Name *)
  pod_Namespace : string;             (* ObjectMeta.Namespace *)
  NodeSelector : gmap string string;
  RestartPolicy : string;
  RunAsUser : option Z;               (* Spec.SecurityContext.RunAsUser *)
  RunAsGroup : option Z;
  Containers : list Container;
  Volumes : list Volume;
  Phase : PodPhase                    (* Status.Phase *)
}.

(** [generatePod]; [cfg] holds the package-level variables it reads. *)
Definition generatePod (cfg : Config) (cwd uid gid : string)
    (env args : list string) : Result Pod :=
  let* envVars := toCoreV1EnvVar env in
  let* runAsUser := strToi64 uid in
  let* runAsGroup := strToi64 gid in
  let* cpu := MustParse (limitCPU cfg) in
  Ok {| GenerateName := "pms-elastic-transcoder-";
        pod_Name := "";
        pod_Namespace := "";
        NodeSelector := {[ "kubernetes.io/arch" := "amd64" ]};
        RestartPolicy := RestartPolicyNever;
        RunAsUser := Some runAsUser;
        RunAsGroup := Some runAsGroup;
        Containers :=
          [ {| c_Name := "plex";
               Command := args;
               Image := pmsImage cfg;
               Env := envVars;
               WorkingDir := cwd;
               Limits := {[ ResourceCPU := cpu ]};
               VolumeMounts :=
                 [ {| vm_Name := "data"; MountPath := "/data"; ReadOnly := false |};
                   {| vm_Name := "config"; MountPath := "/config"; ReadOnly := true |};
                   {| vm_Name := "transcode"; MountPath := "/transcode"; ReadOnly := false |};
                   {| vm_Name := "transcode"; MountPath := "/tmp"; ReadOnly := false |} ] |} ];
        Volumes :=
          [ {| vol_Name := "data"; ClaimName := dataPVC cfg |};
            {| vol_Name := "config"; ClaimName := configPVC cfg |};
            {| vol_Name := "transcode"; ClaimName := transcodePVC cfg |} ];
        Phase := "" |}.

End Builder.

Arguments Container : clear implicits.
Arguments Pod : clear implicits.

(** ** The process: calls on the cluster, log lines, and how a run ends *)

Section Orchestrator.

Context {Quantity : Type}.
Variable ParseQuantity : string -> option Quantity.

(** What a run does that can be observed from outside, in order. *)
Inductive Event : Type :=
  | CallCreate (ns : string) (pod : Pod Quantity)  (* Pods(ns).Create *)
  | CallGet (ns name : string)                     (* Pods(ns).Get *)
  | CallGetLogs (ns name : string)                 (* Pods(ns).GetLogs(name).Stream *)
  | CallReadAll                                    (* io.ReadAll(logsReader) *)
  | CallCloseLogs                                  (* logsReader.Close(), deferred *)
  | CallCancel                                     (* cancel(), deferred *)
  | CallDelete (ns name : string)                  (* Pods(ns).Delete *)
  | LogStartedPod (name : string)                  (* "started pod %s\n" *)
  | LogWaitError (err : error)                     (* "error waiting for pod to complete: %s" *)
  | LogPodLogs (logs : string)                     (* "pod logs:\n%s" *)
  | LogExitRequested                               (* "exit requested." *)
  | LogCleaningUp                                  (* "cleaning up pod..." *)
  | LogUnknownState (name : string).               (* "warning: pod %q is in an unknown state" *)

Record St : Type := {
  trace : list Event;     (* what has happened so far *)
  defers : list Event     (* the deferred calls, last registered first *)
}.

Inductive Res (A : Type) : Type :=
  | Done (a : A)
  | Stop (x : Abort)      (* the process ends here *)
  | Blocked.              (* waits for an event that never comes *)
Arguments Done {A} a.
Arguments Stop {A} x.
Arguments Blocked {A}.

Definition M (A : Type) : Type := St -> St * Res A.

Definition ret {A} (a : A) : M A := fun st => (st, Done a).

Definition bindM {A B} (m : M A) (k : A -> M B) : M B :=
  fun st =>
    match m st with
    | (st', Done a) => k a st'
    | (st', Stop x) => (st', Stop x)
    | (st', Blocked) => (st', Blocked)
    end.

Definition emit (e : Event) : M unit :=
  fun st => ({| trace := trace st ++ [e]; defers := defers st |}, Done tt).

Definition defer (e : Event) : M unit :=
  fun st => ({| trace := trace st; defers := e :: defers st |}, Done tt).

Definition stop {A} (x : Abort) : M A := fun st => (st, Stop x).

Definition block {A} : M A := fun st => (st, Blocked).

Definition liftR {A} (r : Result A) : M A :=
  match r with
  | Ok a => ret a
  | Aborted x => stop x
  end.

(** [x, err := call; if err != nil { log.Fatalf(msg, err) }] *)
Definition orFatal {A} (msg : error -> FatalMsg) (r : Call A) : M A :=
  match r with
  | Returned a => ret a
  | Errored err => stop (Fatal (msg (ErrExternal err)))
  end.

Notation "'let!' x ':=' c 'in' k" := (bindM c (fun x => k))
  (at level 10, x name, c at level 100, k at level 200).
Notation "c '>>' k" := (bindM c (fun _ => k))
  (at level 65, right associativity).

(** *** The lifecycle watcher *)

(** One turn of the [select] in [waitForPodCompletion]: the context is
    done, or the five seconds have passed and [Get] answers. *)
Inductive Tick : Type :=
  | CtxDone
  | Timer (answer : Call (Pod Quantity)).

(** [waitForPodCompletion(ctx, cl, pod)] against the turns [ticks]: the
    result is the returned [error] ([None] for [nil]). When the turns
    run out the function is still waiting. *)
Fixpoint waitForPodCompletion (pod : Pod Quantity) (ticks : list Tick)
    : M (option error) :=
  match ticks with
  | [] => block
  | CtxDone :: _ => ret (Some ErrContextCancelled)
  | Timer answer :: ticks' =>
      emit (CallGet (pod_Namespace pod) (pod_Name pod)) >>
      match answer with
      | Errored err => ret (Some (ErrExternal err))
      | Returned pod' =>
          if String.eqb (Phase pod') PodPending then
            waitForPodCompletion pod ticks'
          else if String.eqb (Phase pod') PodRunning then
            waitForPodCompletion pod ticks'
          else if String.eqb (Phase pod') PodUnknown then
            emit (LogUnknownState (pod_Name pod')) >>
            waitForPodCompletion pod ticks'
          else if String.eqb (Phase pod') PodFailed then
            ret (Some (ErrPodFailed (pod_Name pod')))
          else if String.eqb (Phase pod') PodSucceeded then
            ret None
          else waitForPodCompletion pod ticks'
      end
  end.

(** *** [main] *)

(** Everything [main] reads from outside the program. *)
Record World : Type := {
  osEnviron : list string;                 (* os.Environ() *)
  osArgs : list string;                    (* os.Args *)
  envConfig : Config;                      (* the package-level variables *)
  PLEX_UID : string;
  PLEX_GID : string;
  getwd : Call string;                     (* os.Getwd() *)
  buildConfig : option string;             (* clientcmd.BuildConfigFromFlags *)
  newForConfig : option string;            (* kubernetes.NewForConfig *)
  createPod : Pod Quantity -> Call (Pod Quantity);
  polls : list (Call (Pod Quantity));      (* the answers to the successive Get calls *)
  stopAfter : option nat;                  (* see [SetupSignalHandler] *)
  logsStream : Call (Call string);         (* Stream, then io.ReadAll on it *)
  deletePod : option string                (* the error of Pods(ns).Delete, if any *)
}.

(** Which [case] of the [select] in [main] fires. *)
Inductive Selected : Type :=
  | WaitReturned (err : option error)   (* err := <-waitFn() *)
  | StopRequested.                      (* <-stopCh *)

(** Modelled from the spec: [signals.SetupSignalHandler] (package
    [pkg/signals], not among the sources) sets up the listener for the
    external stop signal; the channel it returns becomes ready when the
    operator interrupts the process. The result [Some n] says that this
    happens once the watcher has taken [n] turns without returning, [None]
    that it never happens. *)
Definition SetupSignalHandler (w : World) : option nat := stopAfter w.

(** The [select] of [main]: the watcher returns, or the stop channel is
    ready first. The context of [main] is cancelled only by the deferred
    [cancel], so every turn of the watcher is a timer turn. The watcher's
    goroutine is not stopped by the signal; what it does while [main]
    cleans up (more [Get] calls, at most) is left out of the trace. *)
Definition awaitOutcome (w : World) (pod : Pod Quantity) : M Selected :=
  fun st =>
    match SetupSignalHandler w with
    | None =>
        bindM (waitForPodCompletion pod (Timer <$> polls w))
              (fun err => ret (WaitReturned err)) st
    | Some n =>
        match waitForPodCompletion pod (Timer <$> take n (polls w)) st with
        | (st', Done err) => (st', Done (WaitReturned err))
        | (st', Stop x) => (st', Stop x)
        | (st', Blocked) => (st', Done StopRequested)
        end
    end.

(** [main] up to and including the creation of the pod. *)
Definition setup (w : World) : M (Pod Quantity) :=
  defer CallCancel >>
  let env := rewriteEnv (osEnviron w) in
  let! args := liftR (rewriteArgs (pmsInternalAddress (envConfig w)) (osArgs w)) in
  let cfg := setDefaults (envConfig w) in
  let! cwd := orFatal FatalGetwd (getwd w) in
  let! _ := orFatal FatalKubeconfig
              (match buildConfig w with Some e => Errored e | None => Returned tt end) in
  let! _ := orFatal FatalClientset
              (match newForConfig w with Some e => Errored e | None => Returned tt end) in
  let! pod := liftR (generatePod ParseQuantity cfg cwd (PLEX_UID w) (PLEX_GID w) env args) in
  emit (CallCreate (namespace cfg) pod) >>
  let! pod := orFatal FatalCreatePod (createPod w pod) in
  emit (LogStartedPod (pod_Name pod)) >>
  ret pod.

(** The [if err != nil] block of the first [case]: dump the pod logs. *)
Definition dumpLogs (w : World) (pod : Pod Quantity) (err : error) : M unit :=
  emit (LogWaitError err) >>
  emit (CallGetLogs (namespace (setDefaults (envConfig w))) (pod_Name pod)) >>
  let! logsReader := orFatal FatalGetLogs (logsStream w) in
  defer CallCloseLogs >>
  emit CallReadAll >>
  let! logs := orFatal FatalReadLogs logsReader in
  emit (LogPodLogs logs).

(** The last statements of [main]. *)
Definition cleanup (w : World) (pod : Pod Quantity) : M unit :=
  emit LogCleaningUp >>
  emit (CallDelete (namespace (setDefaults (envConfig w))) (pod_Name pod)) >>
  match deletePod w with
  | Some err => stop (Fatal (FatalCleanup (ErrExternal err)))
  | None => ret tt
  end.

(** [main] from the [select] on: the body of the case that fired, then
    the cleanup. *)
Definition afterSelect (w : World) (pod : Pod Quantity) (selected : Selected)
    : M unit :=
  match selected with
  | WaitReturned (Some err) => dumpLogs w pod err
  | WaitReturned None => ret tt
  | StopRequested => emit LogExitRequested
  end >>
  cleanup w pod.

Definition main (w : World) : M unit :=
  let! pod := setup w in
  let! selected := awaitOutcome w pod in
  afterSelect w pod selected.

(** A run of the program: the trace, with the deferred calls made when
    [main] returns or panics (not when it exits through [log.Fatalf]), and
    how it ended. *)
Definition run (w : World) : list Event * Res unit :=
  let '(st, r) := main w {| trace := []; defers := [] |} in
  (match r with
   | Done _ | Stop (Panic _) => trace st ++ defers st
   | Stop (Fatal _) | Blocked => trace st
   end, r).

(** The outcome the wait reaches in the run, if the run gets that far. *)
Definition outcome (w : World) : option Selected :=
  match setup w {| trace := []; defers := [] |} with
  | (st, Done pod) =>
      match awaitOutcome w pod st with
      | (_, Done selected) => Some selected
      | _ => None
      end
  | _ => None
  end.

Definition isDelete (e : Event) : bool :=
  match e with CallDelete _ _ => true | _ => false end.

Definition isGetLogs (e : Event) : bool :=
  match e with CallGetLogs _ _ => true | _ => false end.

Definition isGet (e : Event) : bool :=
  match e with CallGet _ _ => true | _ => false end.

Definition calls (p : Event -> bool) (tr : list Event) : nat :=
  List.length (List.filter p tr).

(** A turn after which the watcher goes on polling: the answer is a pod
    whose phase is neither [Failed] nor [Succeeded]. *)
Definition continues (t : Tick) : bool :=
  match t with
  | Timer (Returned pod') =>
      negb (String.eqb (Phase pod') PodFailed) &&
      negb (String.eqb (Phase pod') PodSucceeded)
  | _ => false
  end.

(** What the watcher does on such turns. *)
Definition onContinue (pod : Pod Quantity) (t : Tick) : list Event :=
  match t with
  | Timer (Returned pod') =>
      CallGet (pod_Namespace pod) (pod_Name pod) ::
      (if String.eqb (Phase pod') PodUnknown
       then [LogUnknownState (pod_Name pod')] else [])
  | _ => []
  end.

Definition extend (st : St) (evs : list Event) : St :=
  {| trace := trace st ++ evs; defers := defers st |}.

Definition watched (pod : Pod Quantity) (ticks : list Tick) : list Event :=
  flat_map (onContinue pod) ticks.

(** A turn on which the watcher returns: what it does and what it
    returns. *)
Definition onReturn (pod : Pod Quantity) (t : Tick) : list Event :=
  match t with
  | CtxDone => []
  | Timer _ => [CallGet (pod_Namespace pod) (pod_Name pod)]
  end.

Definition verdict (t : Tick) : option error :=
  match t with
  | CtxDone => Some ErrContextCancelled
  | Timer (Errored err) => Some (ErrExternal err)
  | Timer (Returned pod') =>
      if String.eqb (Phase pod') PodFailed
      then Some (ErrPodFailed (pod_Name pod')) else None
  end.

(** Events that are neither a delete nor a log fetch. *)
Definition quiet (e : Event) : bool := negb (isDelete e) && negb (isGetLogs e).

(** A pod as the API server reports it, reduced to what the watcher reads. *)
Definition podStatus (ns name : string) (phase : PodPhase) : Pod Quantity :=
  {| GenerateName := "pms-elastic-transcoder-"; pod_Name := name;
     pod_Namespace := ns; NodeSelector := ∅; RestartPolicy := RestartPolicyNever;
     RunAsUser := None; RunAsGroup := None; Containers := []; Volumes := [];
     Phase := phase |}.

End Orchestrator.

Arguments Done {A} a.
Arguments Stop {A} x.
Arguments Blocked {A}.

(** A cluster for the examples below: quantities are kept as their text,
    the created pod is given a name, and the answers to the polls, the stop
    signal, the log stream and the answer to the delete are left open. *)
Definition keepText (str : string) : option string := Some str.

Definition created (pod : Pod string) : Pod string :=
  {| GenerateName := GenerateName pod; pod_Name := "pms-elastic-transcoder-x7k2p";
     pod_Namespace := "plex"; NodeSelector := NodeSelector pod;
     RestartPolicy := RestartPolicy pod; RunAsUser := RunAsUser pod;
     RunAsGroup := RunAsGroup pod; Containers := Containers pod;
     Volumes := Volumes pod; Phase := PodPending |}.

Definition reported (phase : PodPhase) : Call (Pod string) :=
  Returned (podStatus "plex" "pms-elastic-transcoder-x7k2p" phase).

Definition cluster (polls : list (Call (Pod string))) (stopAfter : option nat)
    (logsStream : Call (Call string)) (deletePod : option string) : World :=
  {| osEnviron := ["HOME=/config"; "LANG=C"];
     osArgs := ["/usr/lib/plexmediaserver/Plex Transcoder"; "-i"; "/data/film.mkv";
                "-progressurl"; "http://127.0.0.1:32400/video/:/transcode/progress";
                "-loglevel"; "quiet"; "out.m3u8"];
     envConfig := {| dataPVC := "data"; configPVC := "config";
                     transcodePVC := "transcode"; namespace := "plex";
                     pmsImage := "plexinc/pms-docker:latest";
                     pmsInternalAddress := "http://plex:32400"; limitCPU := "" |};
     PLEX_UID := "1000"; PLEX_GID := "1000";
     getwd := Returned "/transcode";
     buildConfig := None; newForConfig := None;
     createPod := fun pod => Returned (created pod);
     polls := polls; stopAfter := stopAfter;
     logsStream := logsStream; deletePod := deletePod |}.

(** ** The rewriter as a scan *)

(** The single left-to-right pass, written on the vector itself: each
    element is what the element before it, as rewritten, writes over it. *)
Fixpoint rewrittenAfter (addr prev : string) (rest : list string) : list string :=
  match rest with
  | [] => []
  | x :: rest' =>
      let x' := written addr prev x in
      x' :: rewrittenAfter addr x' rest'
  end.

Definition rewritten (addr : string) (in_ : list string) : list string :=
  match in_ with
  | [] => []
  | v :: rest => v :: rewrittenAfter addr v rest
  end.

Definition endsInFlag (l : list string) : bool :=
  match last l with
  | Some v => isRecognizedFlag v
  | None => false
  end.

(** The range of [int64]. *)
Definition minInt64 : Z := (- 2 ^ 63)%Z.
Definition maxInt64 : Z := (2 ^ 63 - 1)%Z.

Definition isCreate {Quantity : Type} (e : Event (Quantity:=Quantity)) : bool :=
  match e with CallCreate _ _ => true | _ => false end.

(** What the watcher adds to the trace: calls of [Get] for the pod it was
    given, and warnings. *)
Definition ofWatcher {Quantity : Type} (pod : Pod Quantity)
    (e : Event (Quantity:=Quantity)) : Prop :=
  e = CallGet (pod_Namespace pod) (pod_Name pod) \/ exists name, e = LogUnknownState name.

(** * Properties *)

(** ** Strings *)

Module StringFacts.
Import Strings.

Lemma app_cons c a b : String c a +:+ b = String c (a +:+ b).
Proof. reflexivity. Qed.

Lemma app_empty_l s : "" +:+ s = s.
Proof. reflexivity. Qed.

Lemma length_app a b : length (a +:+ b) = length a + length b.
Proof. induction a as [|c a IH]; [reflexivity|]. rewrite app_cons. simpl. now rewrite IH. Qed.

Lemma take_app a b : take (length a) (a +:+ b) = a.
Proof. induction a as [|c a IH]; [now destruct b|]. rewrite app_cons. simpl. now rewrite IH. Qed.

Lemma drop_app a b : drop (length a) (a +:+ b) = b.
Proof. induction a as [|c a IH]; [now destruct b|]. rewrite app_cons. simpl. exact IH. Qed.

Lemma drop_add n m s : drop (n + m) s = drop m (drop n s).
Proof.
  revert s. induction n as [|n IH]; intros s; [now destruct s|].
  destruct s as [|c s]; simpl; [now destruct m|]. apply IH.
Qed.

Lemma take_drop n s : take n s +:+ drop n s = s.
Proof.
  revert s. induction n as [|n IH]; intros s; [now destruct s|].
  destruct s as [|c s]; [reflexivity|]. simpl. rewrite app_cons. now rewrite IH.
Qed.

Lemma HasPrefix_app s p : HasPrefix (p +:+ s) p = true.
Proof.
  induction p as [|c p IH]; [reflexivity|]. rewrite app_cons. simpl.
  rewrite Ascii.eqb_refl. exact IH.
Qed.

Lemma HasPrefix_true s p : HasPrefix s p = true -> s = p +:+ drop (length p) s.
Proof.
  revert s. induction p as [|c p IH]; intros s H.
  - now destruct s.
  - destruct s as [|d s]; [discriminate|]. simpl in H.
    apply andb_true_iff in H as [Hc Hp]. apply Ascii.eqb_eq in Hc. subst d.
    rewrite app_cons. simpl. f_equal. now apply IH.
Qed.

(** [Index] finds an instance of [substr]: the text before it, the
    instance, and the text after it make up [s]. *)
Lemma Index_Some s substr j :
  Index s substr = Some j ->
  s = take j s +:+ substr +:+ drop (j + length substr) s /\ length (take j s) = j.
Proof.
  revert j. induction s as [|c s IH]; intros j H; simpl in H.
  - destruct (HasPrefix "" substr) eqn:Hp; [|discriminate].
    injection H as <-. split; [|reflexivity].
    apply HasPrefix_true in Hp. exact Hp.
  - destruct (HasPrefix (String c s) substr) eqn:Hp.
    + injection H as <-. split; [|reflexivity].
      apply HasPrefix_true in Hp. exact Hp.
    + destruct (Index s substr) as [k|] eqn:Hk; [|discriminate].
      injection H as <-. destruct (IH k eq_refl) as [E L]. simpl.
      rewrite app_cons. split; [now rewrite <- E | now rewrite L].
Qed.

(** The instance found is the first one. *)
Lemma Index_first s substr j k :
  Index s substr = Some j -> k < j -> HasPrefix (drop k s) substr = false.
Proof.
  revert j k. induction s as [|c s IH]; intros j k H Hk; simpl in H.
  - destruct (HasPrefix "" substr); [injection H as <-; lia | discriminate].
  - destruct (HasPrefix (String c s) substr) eqn:Hp; [injection H as <-; lia|].
    destruct (Index s substr) as [m|] eqn:Hm; [|discriminate].
    injection H as <-. destruct k as [|k]; [exact Hp|].
    simpl. apply (IH m); [reflexivity | lia].
Qed.

Lemma Index_None_app s substr a b :
  Index s substr = None -> s <> a +:+ substr +:+ b.
Proof.
  revert a. induction s as [|c s IH]; intros a H E; simpl in H.
  - destruct (HasPrefix "" substr) eqn:Hp; [discriminate|].
    destruct a; [|discriminate]. rewrite app_empty_l in E.
    rewrite E in Hp. now rewrite HasPrefix_app in Hp.
  - destruct (HasPrefix (String c s) substr) eqn:Hp; [discriminate|].
    destruct (Index s substr) eqn:Hi; [discriminate|].
    destruct a as [|d a].
    + rewrite app_empty_l in E. rewrite E in Hp. now rewrite HasPrefix_app in Hp.
    + rewrite app_cons in E. injection E as _ E. exact (IH a eq_refl E).
Qed.

Lemma Contains_app a substr b : Contains (a +:+ substr +:+ b) substr = true.
Proof.
  unfold Contains. destruct (Index _ _) eqn:H; [reflexivity|].
  exfalso. exact (Index_None_app _ _ a b H eq_refl).
Qed.


Lemma Replace1_absent s old new : Contains s old = false -> Replace1 s old new = s.
Proof. unfold Contains, Replace1. now destruct (Index s old). Qed.

(** Splitting at a one-character separator that the name does not contain. *)
Lemma Index_char k c v :
  Index k (String c "") = None -> Index (k +:+ String c v) (String c "") = Some (length k).
Proof.
  induction k as [|d k IH]; intros H.
  - rewrite app_empty_l. simpl. now rewrite Ascii.eqb_refl.
  - rewrite app_cons. simpl in *.
    destruct (Ascii.eqb d c) eqn:Hd; simpl in *; [discriminate|].
    destruct (Index k (String c "")) eqn:Hk; [discriminate|].
    now rewrite IH.
Qed.

End StringFacts.

(** ** The argument rewriter *)

Section RewriterFacts.

Variable addr : string.

Lemma isRecognizedFlag_cases v :
  isRecognizedFlag v = true ->
  v = "-progressurl" \/ v = "-manifest_name" \/ v = "-segment_list" \/
  v = "-loglevel" \/ v = "-loglevel_plex".
Proof.
  unfold isRecognizedFlag, isURLFlag, isVerbosityFlag. intros H.
  repeat (apply orb_true_iff in H as [H|H]); apply String.eqb_eq in H; tauto.
Qed.


Lemma verbosity_recognized v : isVerbosityFlag v = true -> isRecognizedFlag v = true.
Proof. unfold isRecognizedFlag. intros ->. apply orb_true_r. Qed.

Lemma url_recognized v : isURLFlag v = true -> isRecognizedFlag v = true.
Proof. unfold isRecognizedFlag. now intros ->. Qed.

Lemma written_unrecognized prev x : isRecognizedFlag prev = false -> written addr prev x = x.
Proof.
  unfold isRecognizedFlag, written. intros H. apply orb_false_iff in H as [-> ->].
  reflexivity.
Qed.

Lemma body_unrecognized i v (l : list string) :
  isRecognizedFlag v = false -> rewriteArgs_body addr i v l = Ok l.
Proof.
  unfold isRecognizedFlag, rewriteArgs_body. intros H.
  apply orb_false_iff in H as [-> ->]. reflexivity.
Qed.

Lemma body_recognized i v (l : list string) :
  isRecognizedFlag v = true ->
  rewriteArgs_body addr i v l =
    match l !! S i with
    | Some x => Ok (<[S i := written addr v x]> l)
    | None => Aborted (Panic (IndexOutOfRange (S i) (List.length l)))
    end.
Proof.
  unfold isRecognizedFlag, rewriteArgs_body, written, index, assign. intros H.
  rewrite Nat.add_1_r.
  destruct (l !! S i) as [x|] eqn:Hx.
  - apply lookup_lt_Some in Hx as Hlt.
    destruct (isURLFlag v); simpl.
    + destruct (decide (S i < List.length l)); [reflexivity | lia].
    + simpl in H. rewrite H.
      destruct (decide (S i < List.length l)); [reflexivity | lia].
  - apply lookup_ge_None in Hx as Hge.
    destruct (isURLFlag v); simpl; [reflexivity|].
    simpl in H. rewrite H.
    destruct (decide (S i < List.length l)); [lia | reflexivity].
Qed.

(** The invariant of the pass: the slots up to the current index are
    final, and every later slot receives what the element before it, as
    visited, writes into it. A flag visited at the last index has no slot
    to write, so a pass that returns has visited none there. *)
Lemma rewriteArgs_loop_Ok n : forall i (l out : list string),
  i + n = List.length l ->
  rewriteArgs_loop addr n i l = Ok out ->
  List.length out = List.length l /\
  (forall j, j <= i -> out !! j = l !! j) /\
  (forall j p, i <= j -> out !! j = Some p ->
     match l !! S j with
     | Some x => out !! S j = Some (written addr p x)
     | None => isRecognizedFlag p = false
     end).
Proof.
  induction n as [|n IH]; intros i l out Hlen H; simpl in H.
  - injection H as <-. split; [reflexivity|]. split; [reflexivity|].
    intros j p Hj Hp. apply lookup_lt_Some in Hp. lia.
  - destruct (l !! i) as [v|] eqn:Hv;
      [|apply lookup_ge_None in Hv; lia].
    destruct (isRecognizedFlag v) eqn:Hr.
    + rewrite (body_recognized _ _ _ Hr) in H.
      destruct (l !! S i) as [x|] eqn:Hx; [|discriminate]. simpl in H.
      apply IH in H as (L & Before & After); [|rewrite length_insert; lia].
      rewrite length_insert in L. split; [exact L|]. split.
      * intros j Hj. rewrite (Before j) by lia.
        apply list_lookup_insert_ne. lia.
      * intros j p Hj Hp. destruct (decide (j = i)) as [->|Hne].
        -- rewrite Hx. rewrite (Before i) in Hp by lia.
           rewrite list_lookup_insert_ne in Hp by lia.
           rewrite Hv in Hp. injection Hp as <-.
           rewrite (Before (S i)) by lia.
           apply list_lookup_insert_eq. now apply lookup_lt_Some in Hx.
        -- specialize (After j p ltac:(lia) Hp).
           now rewrite list_lookup_insert_ne in After by lia.
    + rewrite (body_unrecognized _ _ _ Hr) in H. simpl in H.
      apply IH in H as (L & Before & After); [|lia].
      split; [exact L|]. split.
      * intros j Hj. apply Before. lia.
      * intros j p Hj Hp. destruct (decide (j = i)) as [->|Hne].
        -- rewrite (Before i) in Hp by lia. rewrite Hv in Hp. injection Hp as <-.
           destruct (l !! S i) as [x|] eqn:Hx; [|exact Hr].
           rewrite (Before (S i)) by lia. rewrite Hx.
           now rewrite written_unrecognized.
        -- apply After; [lia | exact Hp].
Qed.

(** The only way the pass fails: a flag visited at the last index. *)
Lemma rewriteArgs_loop_Aborted n : forall i (l : list string) x,
  i + n = List.length l ->
  rewriteArgs_loop addr n i l = Aborted x ->
  x = Panic (IndexOutOfRange (List.length l) (List.length l)).
Proof.
  induction n as [|n IH]; intros i l x Hlen H; simpl in H; [discriminate|].
  destruct (l !! i) as [v|] eqn:Hv; [|discriminate].
  destruct (isRecognizedFlag v) eqn:Hr.
  - rewrite (body_recognized _ _ _ Hr) in H.
    destruct (l !! S i) as [y|] eqn:Hy; simpl in H.
    + apply IH in H; [|rewrite length_insert; lia].
      now rewrite length_insert in H.
    + apply lookup_ge_None in Hy. apply lookup_lt_Some in Hv.
      injection H as <-. replace (S i) with (List.length l) by lia. reflexivity.
  - rewrite (body_unrecognized _ _ _ Hr) in H. simpl in H.
    apply IH in H; [exact H | lia].
Qed.

Lemma rewriteArgs_Ok (l out : list string) :
  rewriteArgs addr l = Ok out ->
  List.length out = List.length l /\
  out !! 0 = l !! 0 /\
  (forall j p, out !! j = Some p ->
     match l !! S j with
     | Some x => out !! S j = Some (written addr p x)
     | None => isRecognizedFlag p = false
     end).
Proof.
  intros H. apply rewriteArgs_loop_Ok in H as (L & Before & After); [|reflexivity].
  split; [exact L|]. split; [now apply Before|].
  intros j p. apply After. lia.
Qed.

Lemma rewriteArgs_Aborted (l : list string) x :
  rewriteArgs addr l = Aborted x ->
  x = Panic (IndexOutOfRange (List.length l) (List.length l)).
Proof. apply rewriteArgs_loop_Aborted. reflexivity. Qed.



End RewriterFacts.










(** ** The environment translator *)

Section TranslatorFacts.

Lemma SplitN2_wellFormed v :
  wellFormed v = true ->
  Strings.SplitN2 v "=" = [Name (pairOf v); Value (pairOf v)].
Proof.
  unfold wellFormed, Strings.Contains, Strings.SplitN2, pairOf.
  now destruct (Strings.Index v "=").
Qed.

Lemma SplitN2_malformed v : wellFormed v = false -> Strings.SplitN2 v "=" = [v].
Proof.
  unfold wellFormed, Strings.Contains, Strings.SplitN2. now destruct (Strings.Index v "=").
Qed.

Lemma pairOf_first k v :
  Strings.Contains k "=" = false -> pairOf (k +:+ "=" +:+ v) = {| Name := k; Value := v |}.
Proof.
  unfold Strings.Contains, pairOf. intros H.
  destruct (Strings.Index k "=") eqn:Hk; [discriminate|].
  change (k +:+ "=" +:+ v) with (k +:+ String "=" v).
  rewrite (StringFacts.Index_char k "="%char v Hk).
  f_equal.
  - apply StringFacts.take_app.
  - rewrite StringFacts.drop_add, StringFacts.drop_app. reflexivity.
Qed.

(** The loop over well-formed entries fills the slots [i], [i+1], ... of
    [out] with their pairs, in order. *)
Lemma toCoreV1EnvVar_loop_Ok (rest : list string) : forall i (out : list EnvVar),
  i + List.length rest <= List.length out ->
  forallb wellFormed rest = true ->
  toCoreV1EnvVar_loop rest i out =
    Ok (take i out ++ (pairOf <$> rest) ++ drop (i + List.length rest) out).
Proof.
  induction rest as [|v rest IH]; intros i out Hlen Hwf; simpl in *.
  - rewrite Nat.add_0_r. now rewrite take_drop.
  - apply andb_true_iff in Hwf as [Hv Hrest].
    rewrite (SplitN2_wellFormed v Hv). unfold index at 1 2. simpl.
    unfold assign. destruct (decide (i < List.length out)); [|lia]. simpl.
    replace {| Name := Name (pairOf v); Value := Value (pairOf v) |}
      with (pairOf v) by now destruct (pairOf v).
    rewrite IH by (rewrite ?length_insert; try lia; exact Hrest).
    f_equal.
    assert (Hi : (<[i:=pairOf v]> out) !! i = Some (pairOf v))
      by (apply list_lookup_insert_eq; lia).
    rewrite (take_S_r _ _ _ Hi), take_insert_ge by lia.
    rewrite drop_insert_lt by lia.
    rewrite <- app_assoc. simpl.
    now replace (i + S (List.length rest)) with (S (i + List.length rest)) by lia.
Qed.

(** An entry without ["="] stops the loop: the split has one element and
    [splitvar[1]] is out of range. *)
Lemma toCoreV1EnvVar_loop_Aborted (rest : list string) : forall i (out : list EnvVar),
  i + List.length rest <= List.length out ->
  forallb wellFormed rest = false ->
  toCoreV1EnvVar_loop rest i out = Aborted (Panic (IndexOutOfRange 1 1)).
Proof.
  induction rest as [|v rest IH]; intros i out Hlen Hwf; simpl in *; [discriminate|].
  destruct (wellFormed v) eqn:Hv; simpl in Hwf.
  - rewrite (SplitN2_wellFormed v Hv). unfold index at 1 2. simpl.
    unfold assign. destruct (decide (i < List.length out)); [|lia]. simpl.
    apply IH; [rewrite length_insert; lia | exact Hwf].
  - rewrite (SplitN2_malformed v Hv). reflexivity.
Qed.

(** [toCoreV1EnvVar], case by case. *)
Lemma toCoreV1EnvVar_cases (in_ : list string) :
  toCoreV1EnvVar in_ =
    if forallb wellFormed in_ then Ok (pairOf <$> in_)
    else Aborted (Panic (IndexOutOfRange 1 1)).
Proof.
  unfold toCoreV1EnvVar. destruct (forallb wellFormed in_) eqn:Hwf.
  - rewrite toCoreV1EnvVar_loop_Ok by (rewrite ?length_replicate; simpl; try lia; exact Hwf).
    simpl. rewrite drop_ge by (rewrite length_replicate; lia).
    now rewrite app_nil_r.
  - apply toCoreV1EnvVar_loop_Aborted; [rewrite length_replicate; simpl; lia | exact Hwf].
Qed.

End TranslatorFacts.

(** C5, as the code has it. An entry without ["="] anywhere in the sequence
    makes [toCoreV1EnvVar] panic with the run-time error index out of range
    [1] with length 1: the code has no check of its own. A well-formed
    entry is split at its first ["="] into name and value. *)
Theorem toCoreV1EnvVar_entry (in_ : list string) (e k v : string) :
  e ∈ in_ ->
  Strings.Contains e "=" = false ->
  Strings.Contains k "=" = false ->
  toCoreV1EnvVar in_ = Aborted (Panic (IndexOutOfRange 1 1)) /\
  toCoreV1EnvVar [k +:+ "=" +:+ v] = Ok [{| Name := k; Value := v |}].
Proof.
  intros He Hbad Hk. rewrite !toCoreV1EnvVar_cases. split.
  - destruct (forallb wellFormed in_) eqn:Hwf; [|reflexivity].
    rewrite forallb_forall in Hwf. apply list_elem_of_In in He.
    specialize (Hwf e He). unfold wellFormed in Hwf. congruence.
  - simpl. unfold wellFormed.
    rewrite StringFacts.Contains_app. simpl. now rewrite pairOf_first.
Qed.

Lemma toCoreV1EnvVar_entry_witness :
  toCoreV1EnvVar ["HOME=/config"; "LANG"; "TZ=UTC"] =
    Aborted (Panic (IndexOutOfRange 1 1)) /\
  toCoreV1EnvVar ["PLEX_OPTS" +:+ "=" +:+ "a=1,b=2"] =
    Ok [{| Name := "PLEX_OPTS"; Value := "a=1,b=2" |}].
Proof.
  refine (toCoreV1EnvVar_entry ["HOME=/config"; "LANG"; "TZ=UTC"] "LANG"
            "PLEX_OPTS" "a=1,b=2" _ _ _).
  - apply list_elem_of_In. simpl. right. left. reflexivity.
  - reflexivity.
  - reflexivity.
Defined.

(** C5 as it is written fails: the entry is not rejected by the
    translator; the run ends in the index-out-of-range panic. *)
Lemma toCoreV1EnvVar_entry_counterexample :
  Strings.Contains "LANG" "=" = false /\
  toCoreV1EnvVar ["LANG"] = Aborted (Panic (IndexOutOfRange 1 1)) /\
  ~ rejectsExplicitly (toCoreV1EnvVar ["LANG"]).
Proof.
  split; [reflexivity|]. split; [reflexivity|].
  intros [[e H]|[m H]]; discriminate H.
Qed.

(** C10. On well-formed entries [toCoreV1EnvVar] returns one [EnvVar] per
    entry: as many as the input has, the one at index [i] made from the
    entry at index [i] (so order and duplicates are kept), its name the text
    before the first ["="] and its value all the text after it, further
    ["="] included. *)
Theorem toCoreV1EnvVar_wellFormed (in_ : list string) :
  (forall e, e ∈ in_ -> Strings.Contains e "=" = true) ->
  exists out,
    toCoreV1EnvVar in_ = Ok out /\
    List.length out = List.length in_ /\
    (forall i e, in_ !! i = Some e -> out !! i = Some (pairOf e)) /\
    (forall i k v, in_ !! i = Some (k +:+ "=" +:+ v) ->
       Strings.Contains k "=" = false ->
       out !! i = Some {| Name := k; Value := v |}).
Proof.
  intros Hwf. exists (pairOf <$> in_).
  assert (Hall : forallb wellFormed in_ = true).
  { apply forallb_forall. intros e He. apply Hwf. now apply list_elem_of_In. }
  rewrite toCoreV1EnvVar_cases, Hall. split; [reflexivity|].
  split; [apply length_fmap|]. split.
  - intros i e Hi. rewrite list_lookup_fmap, Hi. reflexivity.
  - intros i k v Hi Hk. rewrite list_lookup_fmap, Hi. simpl.
    now rewrite pairOf_first.
Qed.

Lemma toCoreV1EnvVar_wellFormed_witness :
  exists out,
    toCoreV1EnvVar ["A=1"; "B=x=y"; "A=1"; "C="] = Ok out /\
    List.length out = 4 /\
    (forall i e, (["A=1"; "B=x=y"; "A=1"; "C="] : list string) !! i = Some e ->
       out !! i = Some (pairOf e)) /\
    (forall i k v, (["A=1"; "B=x=y"; "A=1"; "C="] : list string) !! i =
                     Some (k +:+ "=" +:+ v) ->
       Strings.Contains k "=" = false ->
       out !! i = Some {| Name := k; Value := v |}).
Proof.
  refine (toCoreV1EnvVar_wellFormed ["A=1"; "B=x=y"; "A=1"; "C="] _).
  intros e He. apply list_elem_of_In in He. simpl in He.
  destruct He as [<-|[<-|[<-|[<-|[]]]]]; reflexivity.
Defined.

(** ** The job spec builder *)

(** C9. With a unit and environment that the builder accepts: when
    [LIMIT_CPU] is empty, [setDefaults] makes the limit ["100m"], otherwise
    it leaves the configured text as it is, and the pod that [generatePod]
    builds has, as the CPU limit of its container, the quantity parsed from
    that text and no other limit. *)
Theorem generatePod_limitCPU {Quantity : Type} (ParseQuantity : string -> option Quantity)
    (cfg : Config) (cwd uid gid : string) (env args : list string)
    (u g : Z) (ev : list EnvVar) (q : Quantity) :
  strToi64 uid = Ok u ->
  strToi64 gid = Ok g ->
  toCoreV1EnvVar env = Ok ev ->
  ParseQuantity (limitCPU (setDefaults cfg)) = Some q ->
  (limitCPU cfg = "" -> limitCPU (setDefaults cfg) = "100m") /\
  (limitCPU cfg <> "" -> limitCPU (setDefaults cfg) = limitCPU cfg) /\
  exists pod c,
    generatePod ParseQuantity (setDefaults cfg) cwd uid gid env args = Ok pod /\
    Containers pod = [c] /\
    Limits c = {[ ResourceCPU := q ]}.
Proof.
  intros Hu Hg Hev Hq. split; [|split].
  - unfold setDefaults. now intros ->.
  - unfold setDefaults. intros Hne.
    destruct (String.eqb (limitCPU cfg) "") eqn:E; [|reflexivity].
    now apply String.eqb_eq in E.
  - unfold generatePod, MustParse. rewrite Hev, Hu, Hg, Hq. simpl.
    eexists _, _. split; [reflexivity|]. split; reflexivity.
Qed.

Lemma generatePod_limitCPU_witness :
  let cfg := {| dataPVC := "data"; configPVC := "config"; transcodePVC := "transcode";
                namespace := "plex"; pmsImage := "plexinc/pms-docker:latest";
                pmsInternalAddress := "http://plex:32400"; limitCPU := "" |} in
  (limitCPU cfg = "" -> limitCPU (setDefaults cfg) = "100m") /\
  (limitCPU cfg <> "" -> limitCPU (setDefaults cfg) = limitCPU cfg) /\
  exists pod c,
    generatePod (fun s => Some s) (setDefaults cfg) "/transcode" "1000" "1000"
      ["HOME=/config"] ["Plex Transcoder"] = Ok pod /\
    Containers pod = [c] /\
    Limits c = {[ ResourceCPU := "100m" ]}.
Proof.
  intros cfg.
  refine (generatePod_limitCPU (fun s => Some s) cfg "/transcode" "1000" "1000"
            ["HOME=/config"] ["Plex Transcoder"] 1000%Z 1000%Z
            [{| Name := "HOME"; Value := "/config" |}] "100m" _ _ _ _);
    reflexivity.
Defined.

(** ** The lifecycle watcher *)

Section WatcherFacts.

Context {Quantity : Type}.
Implicit Types (pod : Pod Quantity) (st : St (Quantity:=Quantity)).

Lemma extend_extend st (a b : list Event) :
  extend (extend st a) b = extend st (a ++ b).
Proof. unfold extend. simpl. now rewrite app_assoc. Qed.

Lemma extend_nil st : extend st [] = st.
Proof. destruct st. unfold extend. simpl. now rewrite app_nil_r. Qed.

Lemma phase_cases (ph : PodPhase) :
  (if String.eqb ph PodFailed then ph = PodFailed else ph <> PodFailed) /\
  (if String.eqb ph PodSucceeded then ph = PodSucceeded else ph <> PodSucceeded).
Proof.
  split; [destruct (String.eqb ph PodFailed) eqn:E
         | destruct (String.eqb ph PodSucceeded) eqn:E];
    first [now apply String.eqb_eq | now apply String.eqb_neq].
Qed.

(** A turn on which the phase is neither [Failed] nor [Succeeded]: the
    call, the warning if the phase is [Unknown], and the next turn. *)
Lemma waitForPodCompletion_continue pod t ticks st :
  continues t = true ->
  waitForPodCompletion pod (t :: ticks) st =
    waitForPodCompletion pod ticks (extend st (onContinue pod t)).
Proof.
  destruct t as [|[pod'|msg]]; simpl; try discriminate.
  intros H. apply andb_true_iff in H as [HF HS].
  apply negb_true_iff in HF, HS. rewrite HF, HS.
  unfold bindM at 1, emit at 1.
  destruct (String.eqb (Phase pod') PodPending) eqn:HP.
  { apply String.eqb_eq in HP. rewrite HP. reflexivity. }
  destruct (String.eqb (Phase pod') PodRunning) eqn:HR.
  { apply String.eqb_eq in HR. rewrite HR. reflexivity. }
  destruct (String.eqb (Phase pod') PodUnknown) eqn:HU; [|reflexivity].
  unfold bindM at 1, emit at 1. unfold extend. simpl.
  now rewrite <- app_assoc.
Qed.

(** A turn on which the watcher returns. *)
Lemma waitForPodCompletion_return pod t ticks st :
  continues t = false ->
  waitForPodCompletion pod (t :: ticks) st =
    (extend st (onReturn pod t), Done (verdict t)).
Proof.
  destruct t as [|[pod'|msg]]; simpl; intros H.
  - unfold ret. now rewrite extend_nil.
  - unfold bindM, emit, ret. simpl.
    destruct (String.eqb (Phase pod') PodFailed) eqn:HF.
    + apply String.eqb_eq in HF. rewrite HF. reflexivity.
    + simpl in H. apply negb_false_iff in H.
      apply String.eqb_eq in H. rewrite H. reflexivity.
  - reflexivity.
Qed.

Lemma waitForPodCompletion_prefix pod pre rest st :
  forallb continues pre = true ->
  waitForPodCompletion pod (pre ++ rest) st =
    waitForPodCompletion pod rest (extend st (watched pod pre)).
Proof.
  revert st. induction pre as [|t pre IH]; intros st H.
  - simpl. now rewrite extend_nil.
  - simpl in H. apply andb_true_iff in H as [Ht Hpre].
    rewrite <- app_comm_cons.
    rewrite (waitForPodCompletion_continue _ _ _ _ Ht), IH by exact Hpre.
    now rewrite extend_extend.
Qed.

(** The watcher on any turns: it is still waiting after all of them, or
    it returns on the first turn that does not continue. *)
Lemma waitForPodCompletion_cases pod ticks st :
  (forallb continues ticks = true /\
   waitForPodCompletion pod ticks st = (extend st (watched pod ticks), Blocked)) \/
  (exists pre t post,
     ticks = pre ++ t :: post /\ forallb continues pre = true /\
     continues t = false /\
     waitForPodCompletion pod ticks st =
       (extend st (watched pod pre ++ onReturn pod t), Done (verdict t))).
Proof.
  revert st. induction ticks as [|t ticks IH]; intros st.
  - left. split; [reflexivity|]. simpl. unfold block. now rewrite extend_nil.
  - destruct (continues t) eqn:Ht.
    + rewrite (waitForPodCompletion_continue _ _ _ _ Ht).
      destruct (IH (extend st (onContinue pod t)))
        as [[Hall E]|(pre & t' & post & -> & Hpre & Ht' & E)].
      * left. split; [simpl; now rewrite Ht|].
        rewrite E, extend_extend. reflexivity.
      * right. exists (t :: pre), t', post.
        split; [reflexivity|]. split; [simpl; now rewrite Ht|].
        split; [exact Ht'|]. rewrite E, extend_extend. simpl.
        now rewrite app_assoc.
    + right. exists [], t, ticks. split; [reflexivity|]. split; [reflexivity|].
      split; [exact Ht|]. now apply waitForPodCompletion_return.
Qed.

Lemma quiet_watched pod ticks : forallb quiet (watched pod ticks) = true.
Proof.
  induction ticks as [|t ticks IH]; [reflexivity|].
  unfold watched in *. simpl. rewrite forallb_app, IH, andb_true_r.
  destruct t as [|[pod'|msg]]; try reflexivity. simpl.
  now destruct (String.eqb (Phase pod') PodUnknown).
Qed.

Lemma quiet_onReturn pod t : forallb quiet (onReturn pod t) = true.
Proof. now destruct t. Qed.

(** The watcher neither deletes the pod nor fetches its logs. *)
Lemma waitForPodCompletion_quiet pod ticks st :
  exists evs, fst (waitForPodCompletion pod ticks st) = extend st evs /\
              forallb quiet evs = true.
Proof.
  destruct (waitForPodCompletion_cases pod ticks st)
    as [[_ E]|(pre & t & post & _ & _ & _ & E)]; rewrite E; simpl.
  - eexists. split; [reflexivity|]. apply quiet_watched.
  - eexists. split; [reflexivity|].
    now rewrite forallb_app, quiet_watched, quiet_onReturn.
Qed.

End WatcherFacts.

(** C2. [waitForPodCompletion] returns [nil] exactly when the turn on which
    it returns is a poll that observes [Succeeded], and the error
    [pod %q failed] exactly when that poll observes [Failed]; a poll that
    observes [Pending] or [Running] only makes the call and goes on to the
    next turn, and one that observes [Unknown] makes the call, logs the
    warning and goes on to the next turn. *)
Theorem waitForPodCompletion_phases {Quantity : Type} (pod : Pod Quantity)
    (ticks : list Tick) (st : St) :
  (snd (waitForPodCompletion pod ticks st) = Done None <->
   exists pre pod' post,
     ticks = pre ++ Timer (Returned pod') :: post /\
     forallb continues pre = true /\ Phase pod' = PodSucceeded) /\
  (forall name,
     snd (waitForPodCompletion pod ticks st) = Done (Some (ErrPodFailed name)) <->
     exists pre pod' post,
       ticks = pre ++ Timer (Returned pod') :: post /\
       forallb continues pre = true /\ Phase pod' = PodFailed /\
       pod_Name pod' = name) /\
  (forall pod' rest,
     ticks = Timer (Returned pod') :: rest ->
     (Phase pod' = PodPending \/ Phase pod' = PodRunning ->
      waitForPodCompletion pod ticks st =
        waitForPodCompletion pod rest
          (extend st [CallGet (pod_Namespace pod) (pod_Name pod)])) /\
     (Phase pod' = PodUnknown ->
      waitForPodCompletion pod ticks st =
        waitForPodCompletion pod rest
          (extend st [CallGet (pod_Namespace pod) (pod_Name pod);
                      LogUnknownState (pod_Name pod')]))).
Proof.
  split; [|split].
  - split.
    + intros H.
      destruct (waitForPodCompletion_cases pod ticks st)
        as [[_ E]|(pre & t & post & -> & Hpre & Ht & E)];
        rewrite E in H; simpl in H; [discriminate|].
      injection H as H. destruct t as [|[pod'|msg]]; simpl in *; try discriminate.
      exists pre, pod', post. split; [reflexivity|]. split; [exact Hpre|].
      destruct (phase_cases (Phase pod')) as [HF HS].
      destruct (String.eqb (Phase pod') PodFailed); [discriminate|].
      destruct (String.eqb (Phase pod') PodSucceeded); [exact HS | discriminate].
    + intros (pre & pod' & post & -> & Hpre & HS).
      rewrite (waitForPodCompletion_prefix _ _ _ _ Hpre).
      rewrite waitForPodCompletion_return by (simpl; now rewrite HS).
      simpl. now rewrite HS.
  - intros name. split.
    + intros H.
      destruct (waitForPodCompletion_cases pod ticks st)
        as [[_ E]|(pre & t & post & -> & Hpre & Ht & E)];
        rewrite E in H; simpl in H; [discriminate|].
      injection H as H. destruct t as [|[pod'|msg]]; simpl in *; try discriminate.
      exists pre, pod', post. split; [reflexivity|]. split; [exact Hpre|].
      destruct (phase_cases (Phase pod')) as [HF _].
      destruct (String.eqb (Phase pod') PodFailed); [|discriminate].
      split; [exact HF | congruence].
    + intros (pre & pod' & post & -> & Hpre & HF & <-).
      rewrite (waitForPodCompletion_prefix _ _ _ _ Hpre).
      rewrite waitForPodCompletion_return by (simpl; now rewrite HF).
      simpl. now rewrite HF.
  - intros pod' rest ->. split.
    + intros H.
      rewrite waitForPodCompletion_continue by (simpl; now destruct H as [-> | ->]).
      simpl. now destruct H as [-> | ->].
    + intros H.
      rewrite waitForPodCompletion_continue by (simpl; now rewrite H).
      simpl. now rewrite H.
Qed.

Lemma waitForPodCompletion_phases_witness :
  let pod : Pod string := podStatus "plex" "pms-elastic-transcoder-x7k2p" "" in
  let st : St := {| trace := []; defers := [CallCancel] |} in
  let at_ phase := Timer (Returned (podStatus "plex" "pms-elastic-transcoder-x7k2p" phase)) in
  waitForPodCompletion pod [at_ PodPending; at_ PodRunning; at_ PodUnknown;
                            at_ PodSucceeded; at_ PodFailed] st =
    ({| trace := [CallGet "plex" "pms-elastic-transcoder-x7k2p";
                  CallGet "plex" "pms-elastic-transcoder-x7k2p";
                  CallGet "plex" "pms-elastic-transcoder-x7k2p";
                  LogUnknownState "pms-elastic-transcoder-x7k2p";
                  CallGet "plex" "pms-elastic-transcoder-x7k2p"];
        defers := [CallCancel] |}, Done None) /\
  snd (waitForPodCompletion pod [at_ PodPending; at_ PodRunning; at_ PodUnknown;
                                 at_ PodSucceeded; at_ PodFailed] st) = Done None.
Proof.
  intros pod st at_. split; [reflexivity|].
  apply (proj1 (waitForPodCompletion_phases pod _ st)).
  exists [at_ PodPending; at_ PodRunning; at_ PodUnknown],
    (podStatus "plex" "pms-elastic-transcoder-x7k2p" PodSucceeded), [at_ PodFailed].
  repeat split; reflexivity.
Defined.

(** C3, as the code has it. When a poll returns an error, the watcher
    returns that error at once: after the turns on which it continued it
    makes this one call and no other, whatever turns would follow. *)
Theorem waitForPodCompletion_poll_error {Quantity : Type} (pod : Pod Quantity)
    (pre post : list Tick) (msg : string) (st : St) :
  forallb continues pre = true ->
  waitForPodCompletion pod (pre ++ Timer (Errored msg) :: post) st =
    (extend st (watched pod pre ++ [CallGet (pod_Namespace pod) (pod_Name pod)]),
     Done (Some (ErrExternal msg))).
Proof.
  intros Hpre. rewrite (waitForPodCompletion_prefix _ _ _ _ Hpre).
  rewrite waitForPodCompletion_return by reflexivity.
  now rewrite extend_extend.
Qed.

Lemma waitForPodCompletion_poll_error_witness :
  let pod : Pod string := podStatus "plex" "pms-elastic-transcoder-x7k2p" "" in
  let running := Timer (Returned (podStatus "plex" "pms-elastic-transcoder-x7k2p" PodRunning)) in
  let succeeded := Timer (Returned (podStatus "plex" "pms-elastic-transcoder-x7k2p" PodSucceeded)) in
  waitForPodCompletion pod ([running] ++ Timer (Errored "etcdserver: request timed out")
                                        :: [running; succeeded])
    {| trace := []; defers := [] |} =
    ({| trace := [CallGet "plex" "pms-elastic-transcoder-x7k2p";
                  CallGet "plex" "pms-elastic-transcoder-x7k2p"];
        defers := [] |},
     Done (Some (ErrExternal "etcdserver: request timed out"))).
Proof.
  intros pod running succeeded.
  refine (waitForPodCompletion_poll_error pod [running] [running; succeeded] _ _ _).
  reflexivity.
Defined.

(** C3 as it is written fails: after a poll error there is no next poll,
    although the next answer would have been [Succeeded]. *)
Lemma waitForPodCompletion_poll_error_counterexample :
  let pod : Pod string := podStatus "plex" "pms-elastic-transcoder-x7k2p" "" in
  let succeeded := Timer (Returned (podStatus "plex" "pms-elastic-transcoder-x7k2p" PodSucceeded)) in
  let r := waitForPodCompletion pod [Timer (Errored "etcdserver: request timed out"); succeeded]
             {| trace := []; defers := [] |} in
  snd r = Done (Some (ErrExternal "etcdserver: request timed out")) /\
  calls isGet (trace (fst r)) = 1 /\
  snd r <> Done None.
Proof. repeat split; try reflexivity. discriminate. Qed.

(** ** The orchestrator *)

Section OrchestratorFacts.

Context {Quantity : Type}.
Variable ParseQuantity : string -> option Quantity.
Implicit Types (w : World (Quantity:=Quantity)) (tr : list (Event (Quantity:=Quantity))).

Lemma calls_app (p : Event -> bool) tr tr' :
  calls p (tr ++ tr') = calls p tr + calls p tr'.
Proof. unfold calls. now rewrite List.filter_app, length_app. Qed.

Lemma calls_quiet tr :
  forallb quiet tr = true -> calls isDelete tr = 0 /\ calls isGetLogs tr = 0.
Proof.
  induction tr as [|e tr IH]; [now split|]. simpl. intros H.
  apply andb_true_iff in H as [He Htr]. destruct (IH Htr) as [D G].
  unfold quiet in He. apply andb_true_iff in He as [Hd Hg].
  apply negb_true_iff in Hd, Hg. unfold calls in *. simpl.
  now rewrite Hd, Hg.
Qed.

(** Up to the creation of the pod nothing is deleted and no log is
    fetched; the one deferred call is [cancel]. *)
Lemma setup_Done w st pod :
  setup ParseQuantity w {| trace := []; defers := [] |} = (st, Done pod) ->
  forallb quiet (trace st) = true /\ defers st = [CallCancel].
Proof.
  unfold setup, bindM, defer, liftR, orFatal, emit, ret, stop. simpl.
  destruct (rewriteArgs _ _); [|discriminate].
  destruct (getwd w); [|discriminate].
  destruct (buildConfig w); [discriminate|].
  destruct (newForConfig w); [discriminate|].
  destruct (generatePod _ _ _ _ _ _ _); [|discriminate]. simpl.
  destruct (createPod w _); [|discriminate].
  intros [= <- <-]. now split.
Qed.

Lemma awaitOutcome_quiet w pod st st' r :
  awaitOutcome w pod st = (st', r) ->
  exists evs, st' = extend st evs /\ forallb quiet evs = true.
Proof.
  unfold awaitOutcome, SetupSignalHandler, bindM, ret. intros H.
  destruct (stopAfter w) as [n|].
  - destruct (waitForPodCompletion_quiet pod (Timer <$> take n (polls w)) st)
      as (evs & E & Q).
    destruct (waitForPodCompletion pod _ st) as [st1 [err| |]];
      simpl in E; injection H as <- _; now exists evs.
  - destruct (waitForPodCompletion_quiet pod (Timer <$> polls w) st)
      as (evs & E & Q).
    destruct (waitForPodCompletion pod _ st) as [st1 [err| |]];
      simpl in E; injection H as <- _; now exists evs.
Qed.

(** A run in which the wait reaches an outcome: [main] goes on from the
    [select] in a state without delete or log fetch so far. *)
Lemma main_outcome w selected :
  outcome ParseQuantity w = Some selected ->
  exists st pod,
    forallb quiet (trace st) = true /\ defers st = [CallCancel] /\
    main ParseQuantity w {| trace := []; defers := [] |} = afterSelect w pod selected st.
Proof.
  unfold outcome, main. intros H.
  destruct (setup ParseQuantity w _) as [st1 [pod| |]] eqn:E1; try discriminate.
  destruct (awaitOutcome w pod st1) as [st2 [sel| |]] eqn:E2; try discriminate.
  injection H as ->. exists st2, pod.
  destruct (setup_Done _ _ _ E1) as [Q1 D1].
  destruct (awaitOutcome_quiet _ _ _ _ _ E2) as (evs & -> & Q2).
  split; [simpl; now rewrite forallb_app, Q1, Q2|]. split; [exact D1|].
  unfold bindM at 1. rewrite E1. unfold bindM at 1. now rewrite E2.
Qed.

(** The trace of a run from the [select] on, case by case. *)
Lemma run_outcome w selected :
  outcome ParseQuantity w = Some selected ->
  exists tr ns name,
    forallb quiet tr = true /\
    fst (run ParseQuantity w) =
      tr ++
      match selected with
      | WaitReturned None => [LogCleaningUp; CallDelete ns name]
      | StopRequested => [LogExitRequested; LogCleaningUp; CallDelete ns name]
      | WaitReturned (Some err) =>
          [LogWaitError err; CallGetLogs ns name] ++
          match logsStream w with
          | Errored _ => []
          | Returned (Errored _) => [CallReadAll]
          | Returned (Returned logs) =>
              [CallReadAll; LogPodLogs logs; LogCleaningUp; CallDelete ns name]
          end
      end ++
      match selected, logsStream w, deletePod w with
      | WaitReturned (Some _), Errored _, _ => []
      | WaitReturned (Some _), Returned (Errored _), _ => []
      | WaitReturned (Some _), Returned (Returned _), None => [CallCloseLogs; CallCancel]
      | _, _, None => [CallCancel]
      | _, _, Some _ => []
      end.
Proof.
  intros H. destruct (main_outcome _ _ H) as (st & pod & Q & D & E).
  exists (trace st), (namespace (setDefaults (envConfig w))), (pod_Name pod).
  split; [exact Q|]. unfold run. rewrite E.
  unfold afterSelect, dumpLogs, cleanup, bindM, emit, defer, orFatal, ret, stop.
  destruct selected as [[err|]|]; simpl.
  - destruct (logsStream w) as [[logs|msg]|msg]; simpl.
    + destruct (deletePod w); simpl; rewrite ?D, <- ?app_assoc; reflexivity.
    + destruct (deletePod w); simpl; rewrite <- ?app_assoc; reflexivity.
    + destruct (deletePod w); simpl; rewrite <- ?app_assoc; reflexivity.
  - destruct (deletePod w); simpl; rewrite ?D, <- ?app_assoc; reflexivity.
  - destruct (deletePod w); simpl; rewrite ?D, <- ?app_assoc; reflexivity.
Qed.

End OrchestratorFacts.

(** C1, as the code has it. In a run in which the wait reaches an outcome,
    the pod delete is called at most once. It is called exactly once when
    the wait returned [nil], when the stop was requested, and when the wait
    returned an error and the pod logs were fetched and read; when fetching
    or reading the logs fails, [log.Fatalf] ends the process before the
    cleanup and the delete is not called. *)
Theorem main_delete_calls {Quantity : Type} (ParseQuantity : string -> option Quantity)
    (w : World) (selected : Selected) :
  outcome ParseQuantity w = Some selected ->
  calls isDelete (fst (run ParseQuantity w)) <= 1 /\
  (calls isDelete (fst (run ParseQuantity w)) = 1 <->
   selected = WaitReturned None \/ selected = StopRequested \/
   exists err logs, selected = WaitReturned (Some err) /\
                    logsStream w = Returned (Returned logs)).
Proof.
  intros H. destruct (run_outcome _ _ _ H) as (tr & ns & name & Q & ->).
  destruct (calls_quiet tr Q) as [D _]. rewrite !calls_app, D.
  destruct selected as [[err|]|].
  - destruct (logsStream w) as [[logs|msg]|msg]; destruct (deletePod w); simpl;
      (split; [unfold calls; simpl; lia|]);
      (split; [intros E; first [discriminate E | right; right; eauto]
              | intros [E|[E|(? & ? & E1 & E2)]]; try discriminate; reflexivity]).
  - destruct (logsStream w) as [[logs|msg]|msg]; destruct (deletePod w); simpl;
      (split; [unfold calls; simpl; lia|]); (split; [auto | reflexivity]).
  - destruct (logsStream w) as [[logs|msg]|msg]; destruct (deletePod w); simpl;
      (split; [unfold calls; simpl; lia|]); (split; [auto | reflexivity]).
Qed.

Lemma main_delete_calls_witness :
  let w := cluster [reported PodPending; reported PodRunning] (Some 2)
             (Returned (Returned "")) None in
  outcome keepText w = Some StopRequested /\
  calls isDelete (fst (run keepText w)) <= 1 /\
  (calls isDelete (fst (run keepText w)) = 1 <->
   StopRequested = WaitReturned None \/ StopRequested = StopRequested \/
   exists err logs, StopRequested = WaitReturned (Some err) /\
                    logsStream w = Returned (Returned logs)).
Proof.
  intros w. split; [reflexivity|].
  refine (main_delete_calls keepText w StopRequested _). reflexivity.
Defined.

(** C1 as it is written fails: the pod fails and the log stream cannot be
    opened; the run ends in [log.Fatalf] and the pod is never deleted. *)
Lemma main_delete_calls_counterexample :
  let w := cluster [reported PodRunning; reported PodFailed] None
             (Errored "pods log stream: connection refused") None in
  outcome keepText w =
    Some (WaitReturned (Some (ErrPodFailed "pms-elastic-transcoder-x7k2p"))) /\
  snd (run keepText w) =
    Stop (Fatal (FatalGetLogs (ErrExternal "pods log stream: connection refused"))) /\
  calls isDelete (fst (run keepText w)) = 0.
Proof. repeat split; reflexivity. Qed.

(** C4, as the code has it. In a run in which the wait reaches an outcome,
    the pod log stream is fetched exactly once when the wait returned an
    error, whether the pod failed or a poll could not be answered, and not
    at all when the wait returned [nil] or the stop was requested. When
    the stream is opened and read, what was read is logged after the error
    of the wait. *)
Theorem main_log_fetches {Quantity : Type} (ParseQuantity : string -> option Quantity)
    (w : World) (selected : Selected) :
  outcome ParseQuantity w = Some selected ->
  calls isGetLogs (fst (run ParseQuantity w)) =
    match selected with
    | WaitReturned (Some _) => 1
    | WaitReturned None | StopRequested => 0
    end /\
  (forall err logs,
     selected = WaitReturned (Some err) ->
     logsStream w = Returned (Returned logs) ->
     exists tr ns name tr',
       fst (run ParseQuantity w) =
         tr ++ [LogWaitError err; CallGetLogs ns name; CallReadAll; LogPodLogs logs]
            ++ tr').
Proof.
  intros H. destruct (run_outcome _ _ _ H) as (tr & ns & name & Q & ->).
  destruct (calls_quiet tr Q) as [_ G]. rewrite !calls_app, G. split.
  - destruct selected as [[err|]|];
      destruct (logsStream w) as [[logs|msg]|msg]; destruct (deletePod w);
      reflexivity.
  - intros err logs -> ->. exists tr, ns, name.
    destruct (deletePod w); eexists; simpl; reflexivity.
Qed.

Lemma main_log_fetches_witness :
  let w := cluster [reported PodPending; reported PodFailed] None
             (Returned (Returned "ffmpeg: Conversion failed!")) None in
  outcome keepText w =
    Some (WaitReturned (Some (ErrPodFailed "pms-elastic-transcoder-x7k2p"))) /\
  calls isGetLogs (fst (run keepText w)) = 1 /\
  (forall err logs,
     WaitReturned (Some (ErrPodFailed "pms-elastic-transcoder-x7k2p")) =
       WaitReturned (Some err) ->
     logsStream w = Returned (Returned logs) ->
     exists tr ns name tr',
       fst (run keepText w) =
         tr ++ [LogWaitError err; CallGetLogs ns name; CallReadAll; LogPodLogs logs]
            ++ tr').
Proof.
  intros w. split; [reflexivity|].
  refine (main_log_fetches keepText w
            (WaitReturned (Some (ErrPodFailed "pms-elastic-transcoder-x7k2p"))) _).
  reflexivity.
Defined.

(** C4 as it is written fails: a poll that the API server does not answer
    is no job failure, and the log stream is fetched all the same. *)
Lemma main_log_fetches_counterexample :
  let w := cluster [reported PodRunning; Errored "etcdserver: request timed out"] None
             (Returned (Returned "")) None in
  outcome keepText w =
    Some (WaitReturned (Some (ErrExternal "etcdserver: request timed out"))) /\
  (forall name, ErrExternal "etcdserver: request timed out" <> ErrPodFailed name) /\
  calls isGetLogs (fst (run keepText w)) = 1.
Proof. repeat split; try reflexivity. discriminate. Qed.

(** * Further properties *)

(** ** The argument rewriter *)

Section RewriterScan.

Variable addr : string.

Lemma rewriteArgs_loop_step n i v (l : list string) :
  l !! i = Some v ->
  rewriteArgs_loop addr (S n) i l =
    bindR (rewriteArgs_body addr i v l) (rewriteArgs_loop addr n (S i)).
Proof. intros H. simpl. now rewrite H. Qed.

#[local] Arguments rewriteArgs_loop : simpl never.

Lemma endsInFlag_cons v x (l : list string) :
  endsInFlag (v :: x :: l) = endsInFlag (x :: l).
Proof. reflexivity. Qed.

(** The loop from an index on is the scan from that element on. *)
Lemma rewriteArgs_loop_rewritten (rest : list string) : forall (pre : list string) v,
  rewriteArgs_loop addr (S (List.length rest)) (List.length pre) (pre ++ v :: rest) =
    if endsInFlag (v :: rewrittenAfter addr v rest)
    then Aborted (Panic (IndexOutOfRange (List.length (pre ++ v :: rest))
                                         (List.length (pre ++ v :: rest))))
    else Ok (pre ++ v :: rewrittenAfter addr v rest).
Proof.
  induction rest as [|x rest IH]; intros pre v.
  - rewrite (rewriteArgs_loop_step _ _ v) by (now apply list_lookup_middle).
    unfold endsInFlag. simpl.
    destruct (isRecognizedFlag v) eqn:Hr.
    + rewrite (body_recognized _ _ _ _ Hr).
      rewrite (proj2 (lookup_ge_None (pre ++ [v]) (S (List.length pre))))
        by (rewrite length_app; simpl; lia).
      simpl. rewrite length_app. simpl. now rewrite Nat.add_1_r.
    + now rewrite (body_unrecognized _ _ _ _ Hr).
  - rewrite (rewriteArgs_loop_step _ _ v) by (now apply list_lookup_middle).
    assert (Hshape : forall y t, pre ++ v :: y :: t = (pre ++ [v]) ++ y :: t)
      by (intros y t; now rewrite <- app_assoc).
    assert (Hlen : List.length (pre ++ [v]) = S (List.length pre))
      by (rewrite length_app; simpl; lia).
    simpl rewrittenAfter. rewrite endsInFlag_cons.
    destruct (isRecognizedFlag v) eqn:Hr.
    + rewrite (body_recognized _ _ _ _ Hr).
      replace ((pre ++ v :: x :: rest) !! S (List.length pre)) with (Some x).
      * simpl bindR. rewrite (Hshape x rest).
        rewrite insert_app_r_alt by lia. rewrite Hlen, Nat.sub_diag. simpl insert.
        rewrite <- Hlen. rewrite IH. rewrite !Hshape, !length_app. simpl.
        reflexivity.
      * symmetry. rewrite (Hshape x rest), lookup_app_r by lia.
        now rewrite Hlen, Nat.sub_diag.
    + rewrite (body_unrecognized _ _ _ _ Hr). simpl bindR.
      rewrite (written_unrecognized _ _ _ Hr).
      rewrite (Hshape x rest), <- Hlen, IH. rewrite !Hshape, !length_app. simpl.
      reflexivity.
Qed.

Lemma rewriteArgs_scan (l : list string) :
  rewriteArgs addr l =
    if endsInFlag (rewritten addr l)
    then Aborted (Panic (IndexOutOfRange (List.length l) (List.length l)))
    else Ok (rewritten addr l).
Proof.
  destruct l as [|v rest]; [reflexivity|].
  exact (rewriteArgs_loop_rewritten rest [] v).
Qed.

Lemma rewrittenAfter_unflagged v (rest : list string) :
  isRecognizedFlag v = false ->
  (forall x, x ∈ rest -> isRecognizedFlag x = false) ->
  rewrittenAfter addr v rest = rest.
Proof.
  revert v. induction rest as [|x rest IH]; intros v Hv Hrest; [reflexivity|].
  simpl. rewrite (written_unrecognized _ _ _ Hv). f_equal.
  apply IH.
  - apply Hrest. now left.
  - intros y Hy. apply Hrest. now right.
Qed.

Lemma verbosity_not_url v : isVerbosityFlag v = true -> isURLFlag v = false.
Proof.
  intros H.
  destruct (isRecognizedFlag_cases v (verbosity_recognized _ H))
    as [->|[->|[->|[->| ->]]]]; first [reflexivity | discriminate H].
Qed.

End RewriterScan.

(** X1. [rewriteArgs] is the left-to-right scan [rewritten]: it returns the
    scanned vector, unless the scanned vector ends in a recognized flag, in
    which case it panics with index out of range [n] with length [n], for
    [n] the length of the vector. *)
Theorem rewriteArgs_is_rewritten (addr : string) (in_ : list string) :
  rewriteArgs addr in_ =
    if endsInFlag (rewritten addr in_)
    then Aborted (Panic (IndexOutOfRange (List.length in_) (List.length in_)))
    else Ok (rewritten addr in_).
Proof.
  destruct in_ as [|v rest]; [reflexivity|].
  exact (rewriteArgs_loop_rewritten addr rest [] v).
Qed.

(** X2. A vector without any recognized flag is returned as it is. *)
Theorem rewriteArgs_no_flag (addr : string) (in_ : list string) :
  (forall v, v ∈ in_ -> isRecognizedFlag v = false) ->
  rewriteArgs addr in_ = Ok in_.
Proof.
  intros H. rewrite rewriteArgs_scan.
  assert (E : rewritten addr in_ = in_).
  { destruct in_ as [|v rest]; [reflexivity|]. simpl. f_equal.
    apply rewrittenAfter_unflagged.
    - apply H. now left.
    - intros x Hx. apply H. now right. }
  rewrite E. unfold endsInFlag.
  destruct (last in_) as [v|] eqn:Hl; [|reflexivity].
  rewrite (H v); [reflexivity|].
  rewrite last_lookup in Hl. now apply list_elem_of_lookup_2 in Hl.
Qed.

Lemma rewriteArgs_no_flag_witness :
  rewriteArgs "http://plex:32400"
    ["Plex Transcoder"; "-i"; "http://127.0.0.1:32400/library/parts/1/file.mkv";
     "-codec:0"; "h264"; "debug"] =
  Ok ["Plex Transcoder"; "-i"; "http://127.0.0.1:32400/library/parts/1/file.mkv";
      "-codec:0"; "h264"; "debug"].
Proof.
  refine (rewriteArgs_no_flag "http://plex:32400" _ _).
  intros v Hv. apply list_elem_of_In in Hv. simpl in Hv.
  destruct Hv as [<-|[<-|[<-|[<-|[<-|[<-|[]]]]]]]; reflexivity.
Defined.

(** X3. [rewriteArgs] has one way to fail. Either it returns a vector of
    the same length with the same first element, or the vector is not
    empty and it panics with index out of range [n] with length [n]. *)
Theorem rewriteArgs_returns_or_panics (addr : string) (in_ : list string) :
  (exists out, rewriteArgs addr in_ = Ok out /\
               List.length out = List.length in_ /\ head out = head in_) \/
  (in_ <> [] /\
   rewriteArgs addr in_ =
     Aborted (Panic (IndexOutOfRange (List.length in_) (List.length in_)))).
Proof.
  destruct (rewriteArgs addr in_) as [out|x] eqn:H.
  - left. exists out. split; [reflexivity|].
    destruct (rewriteArgs_Ok _ _ _ H) as (L & Zero & _). split; [exact L|].
    now rewrite !head_lookup.
  - right. split.
    + intros ->. discriminate H.
    + now rewrite (rewriteArgs_Aborted _ _ _ H).
Qed.

(** X4. In the vector that [rewriteArgs] returns, whatever follows a
    verbosity flag is ["debug"], whatever follows a callback-URL flag is the
    argument given there with its first loopback authority replaced, and
    whatever follows any other element is the argument given there. *)
Theorem rewriteArgs_postcondition (addr : string) (in_ out : list string)
    (j : nat) (p : string) :
  rewriteArgs addr in_ = Ok out ->
  out !! j = Some p ->
  (isVerbosityFlag p = true -> out !! S j = Some "debug") /\
  (isURLFlag p = true ->
   exists x, in_ !! S j = Some x /\
             out !! S j = Some (Strings.Replace1 x loopback addr)) /\
  (isRecognizedFlag p = false -> out !! S j = in_ !! S j).
Proof.
  intros H Hp. destruct (rewriteArgs_Ok _ _ _ H) as (L & _ & After).
  specialize (After j p Hp). split; [|split].
  - intros Hv. destruct (in_ !! S j) as [x|].
    + rewrite After. unfold written.
      now rewrite (verbosity_not_url _ Hv), Hv.
    + rewrite (verbosity_recognized _ Hv) in After. discriminate.
  - intros Hu. destruct (in_ !! S j) as [x|].
    + exists x. split; [reflexivity|]. rewrite After. unfold written. now rewrite Hu.
    + rewrite (url_recognized _ Hu) in After. discriminate.
  - intros Hr. destruct (in_ !! S j) as [x|] eqn:Hx.
    + rewrite After. now rewrite written_unrecognized.
    + apply lookup_ge_None in Hx. apply lookup_ge_None. lia.
Qed.

Lemma rewriteArgs_postcondition_witness :
  let in_ := ["Plex Transcoder"; "-loglevel"; "-manifest_name";
              "http://127.0.0.1:32400/m.mpd"; "-segment_list";
              "http://127.0.0.1:32400/s.m3u8"; "-loglevel_plex"; "error"] in
  let out := ["Plex Transcoder"; "-loglevel"; "debug";
              "http://127.0.0.1:32400/m.mpd"; "-segment_list";
              "http://plex:32400/s.m3u8"; "-loglevel_plex"; "debug"] in
  rewriteArgs "http://plex:32400" in_ = Ok out /\
  ((isVerbosityFlag "-segment_list" = true -> out !! 5 = Some "debug") /\
   (isURLFlag "-segment_list" = true ->
    exists x, in_ !! 5 = Some x /\
              out !! 5 = Some (Strings.Replace1 x loopback "http://plex:32400")) /\
   (isRecognizedFlag "-segment_list" = false -> out !! 5 = in_ !! 5)).
Proof.
  intros in_ out. split; [reflexivity|].
  refine (rewriteArgs_postcondition "http://plex:32400" in_ out 4 "-segment_list" _ _);
    reflexivity.
Defined.

(** ** The environment translator and the pod builder *)

Section BuilderFacts.

(** The name cut off at the first ["="] has no ["="] in it. *)
Lemma Index_take_char (c : ascii) (s : string) m :
  Strings.Index s (String c "") = Some m ->
  Strings.Index (Strings.take m s) (String c "") = None.
Proof.
  revert m. induction s as [|d s IH]; intros m H; simpl in H; [discriminate|].
  destruct (Ascii.eqb d c) eqn:Hd; simpl in H.
  - injection H as <-. reflexivity.
  - destruct (Strings.Index s (String c "")) as [k|] eqn:Hk; [|discriminate].
    injection H as <-. simpl. rewrite Hd. simpl. now rewrite (IH k eq_refl).
Qed.

Lemma pairOf_join v :
  wellFormed v = true ->
  Name (pairOf v) +:+ "=" +:+ Value (pairOf v) = v /\
  Strings.Contains (Name (pairOf v)) "=" = false.
Proof.
  unfold wellFormed, Strings.Contains, pairOf.
  destruct (Strings.Index v "=") as [m|] eqn:H; [|discriminate]. intros _. simpl.
  split.
  - destruct (StringFacts.Index_Some _ _ _ H) as [E _].
    change (Strings.length "=") with 1 in E. now rewrite <- E.
  - now rewrite (Index_take_char _ _ _ H).
Qed.

Lemma digits_nonneg (s : string) : forall acc m,
  (0 <= acc)%Z -> digits s acc = Some m -> (0 <= m)%Z.
Proof.
  induction s as [|c s IH]; intros acc m Hacc H; simpl in H.
  - injection H as <-. exact Hacc.
  - destruct (digit c) as [d|] eqn:Hd; [|discriminate].
    refine (IH _ _ _ H). unfold digit in Hd.
    destruct ((48 <=? Z.of_nat (nat_of_ascii c))%Z &&
              (Z.of_nat (nat_of_ascii c) <=? 57)%Z) eqn:Hc; [|discriminate].
    injection Hd as <-. apply andb_true_iff in Hc as [H1 H2].
    apply Z.leb_le in H1. lia.
Qed.

(** What [ParseInt] accepts after the sign. *)
Lemma ParseInt_Success s n :
  ParseInt s = Success n ->
  exists u m, u <> "" /\ digits u 0%Z = Some m /\
    ((s = u \/ s = String "+" u) /\ n = m /\ (m < 2 ^ 63)%Z \/
     s = String "-" u /\ n = (- m)%Z /\ (m <= 2 ^ 63)%Z).
Proof.
  assert (Hu : forall (neg : bool) u,
    match u with
    | EmptyString => Failure (ErrNum "ParseInt" s false)
    | _ =>
        match digits u 0%Z with
        | None => Failure (ErrNum "ParseInt" s false)
        | Some un =>
            if negb neg && (2 ^ 63 <=? un)%Z then Failure (ErrNum "ParseInt" s true)
            else if neg && (2 ^ 63 <? un)%Z then Failure (ErrNum "ParseInt" s true)
            else Success (if neg then (- un)%Z else un)
        end
    end = Success n ->
    exists m, u <> "" /\ digits u 0%Z = Some m /\
      (if neg then n = (- m)%Z /\ (m <= 2 ^ 63)%Z else n = m /\ (m < 2 ^ 63)%Z)).
  { intros neg u H. destruct u as [|c u]; [discriminate|].
    destruct (digits (String c u) 0%Z) as [un|]; [|discriminate].
    exists un. split; [discriminate|]. split; [reflexivity|].
    destruct neg; simpl in H.
    - destruct (2 ^ 63 <? un)%Z eqn:E; [discriminate|].
      injection H as <-. apply Z.ltb_ge in E. now split.
    - destruct (2 ^ 63 <=? un)%Z eqn:E; [discriminate|].
      injection H as <-. apply Z.leb_gt in E. now split. }
  unfold ParseInt. intros H. destruct s as [|c u]; [discriminate|].
  destruct (Ascii.ascii_dec c "+") as [->|Hp].
  - apply (Hu false) in H as (m & Hne & Hd & -> & Hm).
    exists u, m. split; [exact Hne|]. split; [exact Hd|]. left. auto.
  - destruct (Ascii.ascii_dec c "-") as [->|Hm].
    + apply (Hu true) in H as (m & Hne & Hd & -> & Hle).
      exists u, m. split; [exact Hne|]. split; [exact Hd|]. right. auto.
    + assert (H' : match String c u with
                   | EmptyString => Failure (ErrNum "ParseInt" (String c u) false)
                   | _ =>
                       match digits (String c u) 0%Z with
                       | None => Failure (ErrNum "ParseInt" (String c u) false)
                       | Some un =>
                           if negb false && (2 ^ 63 <=? un)%Z
                           then Failure (ErrNum "ParseInt" (String c u) true)
                           else if false && (2 ^ 63 <? un)%Z
                           then Failure (ErrNum "ParseInt" (String c u) true)
                           else Success (if false then (- un)%Z else un)
                       end
                   end = Success n).
      { destruct c as [[] [] [] [] [] [] [] []]; first [exact H | congruence]. }
      apply (Hu false) in H' as (m & Hne & Hd & -> & Hlt).
      exists (String c u), m. split; [exact Hne|]. split; [exact Hd|]. left. auto.
Qed.

(** A failure of [ParseInt] names the function and the text. *)
Lemma ParseInt_Failure s e :
  ParseInt s = Failure e -> exists range, e = ErrNum "ParseInt" s range.
Proof.
  assert (Hu : forall (neg : bool) u,
    match u with
    | EmptyString => Failure (ErrNum "ParseInt" s false)
    | _ =>
        match digits u 0%Z with
        | None => Failure (ErrNum "ParseInt" s false)
        | Some un =>
            if negb neg && (2 ^ 63 <=? un)%Z then Failure (ErrNum "ParseInt" s true)
            else if neg && (2 ^ 63 <? un)%Z then Failure (ErrNum "ParseInt" s true)
            else Success (if neg then (- un)%Z else un)
        end
    end = Failure e -> exists range, e = ErrNum "ParseInt" s range).
  { intros neg u H. destruct u as [|c u]; [injection H as <-; eauto|].
    destruct (digits (String c u) 0%Z) as [un|]; [|injection H as <-; eauto].
    destruct (negb neg && (2 ^ 63 <=? un)%Z); [injection H as <-; eauto|].
    destruct (neg && (2 ^ 63 <? un)%Z); [injection H as <-; eauto | discriminate]. }
  unfold ParseInt. intros H. destruct s as [|c u]; [injection H as <-; eauto|].
  destruct (Ascii.ascii_dec c "+") as [->|Hp]; [exact (Hu false u H)|].
  destruct (Ascii.ascii_dec c "-") as [->|Hm]; [exact (Hu true u H)|].
  apply (Hu false (String c u)).
  destruct c as [[] [] [] [] [] [] [] []]; first [exact H | congruence].
Qed.

End BuilderFacts.

(** X5. What [toCoreV1EnvVar] returns can be read back: joining the name
    and the value at index [i] with ["="] gives the entry at index [i], and
    no name has a ["="] in it. *)
Theorem toCoreV1EnvVar_join (in_ : list string) (out : list EnvVar)
    (i : nat) (ev : EnvVar) :
  toCoreV1EnvVar in_ = Ok out ->
  out !! i = Some ev ->
  in_ !! i = Some (Name ev +:+ "=" +:+ Value ev) /\
  Strings.Contains (Name ev) "=" = false.
Proof.
  rewrite toCoreV1EnvVar_cases.
  destruct (forallb wellFormed in_) eqn:Hwf; [|discriminate].
  intros [= <-] Hev. rewrite list_lookup_fmap in Hev.
  destruct (in_ !! i) as [e|] eqn:He; [|discriminate]. injection Hev as <-.
  rewrite forallb_forall in Hwf.
  assert (Hin : In e in_) by (apply list_elem_of_In; eapply list_elem_of_lookup_2; eauto).
  destruct (pairOf_join e (Hwf e Hin)) as [J C]. now rewrite J.
Qed.

Lemma toCoreV1EnvVar_join_witness :
  (["PATH=/usr/bin"; "PLEX_OPTS=a=1,b=2"; "EMPTY="] : list string) !! 1 =
    Some (Name {| Name := "PLEX_OPTS"; Value := "a=1,b=2" |} +:+ "=" +:+
          Value {| Name := "PLEX_OPTS"; Value := "a=1,b=2" |}) /\
  Strings.Contains (Name {| Name := "PLEX_OPTS"; Value := "a=1,b=2" |}) "=" = false.
Proof.
  refine (toCoreV1EnvVar_join ["PATH=/usr/bin"; "PLEX_OPTS=a=1,b=2"; "EMPTY="]
            [{| Name := "PATH"; Value := "/usr/bin" |};
             {| Name := "PLEX_OPTS"; Value := "a=1,b=2" |};
             {| Name := "EMPTY"; Value := "" |}] 1 _ _ _); reflexivity.
Defined.

(** X6. [strToi64] either returns a number in the range of [int64], for a
    text that is more than a bare sign, or panics with a [NumError] of
    [ParseInt] that carries the text. *)
Theorem strToi64_cases (s : string) :
  (exists n, strToi64 s = Ok n /\ (minInt64 <= n <= maxInt64)%Z /\
             s <> "" /\ s <> "+" /\ s <> "-") \/
  (exists range,
     strToi64 s = Aborted (Panic (PanicError (ErrNum "ParseInt" s range)))).
Proof.
  unfold strToi64. destruct (ParseInt s) as [n|e] eqn:H.
  - left. exists n. split; [reflexivity|].
    destruct (ParseInt_Success _ _ H) as (u & m & Hne & Hd & Hs).
    pose proof (digits_nonneg u 0%Z m ltac:(lia) Hd) as Hm.
    unfold minInt64, maxInt64.
    destruct Hs as [([-> | ->] & -> & Hlt) | (-> & -> & Hle)].
    + split; [lia|]. split; [exact Hne|]. split; intros ->; discriminate H.
    + split; [lia|]. split; [discriminate|]. split; [congruence | discriminate].
    + split; [lia|]. split; [discriminate|]. split; [discriminate | congruence].
  - right. destruct (ParseInt_Failure _ _ H) as [range ->]. now exists range.
Qed.

(** X7. [generatePod] builds a pod exactly when every entry of the
    environment has a ["="], the user and the group id parse as [int64],
    and the CPU limit parses as a quantity. When it does not, it panics. *)
Theorem generatePod_builds {Quantity : Type} (ParseQuantity : string -> option Quantity)
    (cfg : Config) (cwd uid gid : string) (env args : list string) :
  ((exists pod, generatePod ParseQuantity cfg cwd uid gid env args = Ok pod) <->
   forallb wellFormed env = true /\
   (exists u, strToi64 uid = Ok u) /\ (exists g, strToi64 gid = Ok g) /\
   (exists q, ParseQuantity (limitCPU cfg) = Some q)) /\
  (forall x, generatePod ParseQuantity cfg cwd uid gid env args = Aborted x ->
             exists p, x = Panic p).
Proof.
  unfold generatePod, MustParse. rewrite toCoreV1EnvVar_cases.
  destruct (forallb wellFormed env); simpl.
  - destruct (strToi64 uid) as [u|xu] eqn:Hu; simpl.
    + destruct (strToi64 gid) as [g|xg] eqn:Hg; simpl.
      * destruct (ParseQuantity (limitCPU cfg)) as [q|]; simpl.
        -- split; [|discriminate]. split; eauto 10.
        -- split; [|intros x [= <-]; eauto].
           split; [intros [pod H]; discriminate H|].
           intros (_ & _ & _ & q & H). discriminate H.
      * split.
        -- split; [intros [pod H]; discriminate H|].
           intros (_ & _ & [g H] & _). discriminate H.
        -- intros x [= <-]. unfold strToi64 in Hg.
           destruct (ParseInt gid); [discriminate|]. injection Hg as <-. eauto.
    + split.
      * split; [intros [pod H]; discriminate H|].
        intros (_ & [u H] & _). discriminate H.
      * intros x [= <-]. unfold strToi64 in Hu.
        destruct (ParseInt uid); [discriminate|]. injection Hu as <-. eauto.
  - split; [|intros x [= <-]; eauto].
    split; [intros [pod H]; discriminate H|]. intros [H _]. discriminate H.
Qed.



(** X9. [setDefaults] changes nothing but the CPU limit, never leaves the
    limit empty, and applying it again changes nothing. *)
Theorem setDefaults_idempotent (cfg : Config) :
  limitCPU (setDefaults cfg) <> "" /\
  setDefaults (setDefaults cfg) = setDefaults cfg /\
  dataPVC (setDefaults cfg) = dataPVC cfg /\
  configPVC (setDefaults cfg) = configPVC cfg /\
  transcodePVC (setDefaults cfg) = transcodePVC cfg /\
  namespace (setDefaults cfg) = namespace cfg /\
  pmsImage (setDefaults cfg) = pmsImage cfg /\
  pmsInternalAddress (setDefaults cfg) = pmsInternalAddress cfg.
Proof.
  unfold setDefaults. destruct (String.eqb (limitCPU cfg) "") eqn:E.
  - simpl. repeat split. discriminate.
  - rewrite E. repeat split. now apply String.eqb_neq in E.
Qed.

(** ** The lifecycle watcher *)

Section WatcherEvents.

Context {Quantity : Type}.
Implicit Types (pod : Pod Quantity) (st : St (Quantity:=Quantity)).

Lemma ofWatcher_onContinue pod t : Forall (ofWatcher pod) (onContinue pod t).
Proof.
  destruct t as [|[pod'|msg]]; simpl; [constructor| |constructor].
  constructor; [now left|].
  destruct (String.eqb (Phase pod') PodUnknown); constructor; [|constructor].
  right. now exists (pod_Name pod').
Qed.

Lemma ofWatcher_watched pod ticks : Forall (ofWatcher pod) (watched pod ticks).
Proof.
  induction ticks as [|t ticks IH]; [constructor|].
  unfold watched. simpl. apply Forall_app. split; [apply ofWatcher_onContinue | exact IH].
Qed.

Lemma ofWatcher_onReturn pod t : Forall (ofWatcher pod) (onReturn pod t).
Proof. destruct t; simpl; constructor; [now left | constructor]. Qed.

Lemma calls_isGet_app (a b : list (Event (Quantity:=Quantity))) :
  calls isGet (a ++ b) = calls isGet a + calls isGet b.
Proof. unfold calls. now rewrite List.filter_app, length_app. Qed.

Lemma calls_isGet_onContinue pod t :
  calls isGet (onContinue pod t) = if continues t then 1 else calls isGet (onContinue pod t).
Proof.
  destruct t as [|[pod'|msg]]; simpl; try reflexivity.
  destruct (negb _ && negb _); [|reflexivity].
  now destruct (String.eqb (Phase pod') PodUnknown).
Qed.

Lemma calls_isGet_onContinue_le pod t : calls isGet (onContinue pod t) <= 1.
Proof.
  destruct t as [|[pod'|msg]]; simpl; try (unfold calls; simpl; lia).
  destruct (String.eqb (Phase pod') PodUnknown); unfold calls; simpl; lia.
Qed.

Lemma calls_isGet_watched pod ticks :
  forallb continues ticks = true -> calls isGet (watched pod ticks) = List.length ticks.
Proof.
  induction ticks as [|t ticks IH]; [reflexivity|]. simpl. intros H.
  apply andb_true_iff in H as [Ht Hticks].
  unfold watched in *. simpl. rewrite calls_isGet_app, (IH Hticks).
  rewrite calls_isGet_onContinue, Ht. reflexivity.
Qed.

Lemma calls_isGet_watched_le pod ticks :
  calls isGet (watched pod ticks) <= List.length ticks.
Proof.
  induction ticks as [|t ticks IH]; [unfold calls; simpl; lia|].
  unfold watched in *. simpl. rewrite calls_isGet_app.
  pose proof (calls_isGet_onContinue_le pod t). lia.
Qed.

Lemma calls_isGet_onReturn_le pod t : calls isGet (onReturn pod t) <= 1.
Proof. destruct t; unfold calls; simpl; lia. Qed.

(** The trace of the watcher, on any turns. *)
Lemma waitForPodCompletion_events pod ticks st :
  exists evs,
    fst (waitForPodCompletion pod ticks st) = extend st evs /\
    Forall (ofWatcher pod) evs /\
    calls isGet evs <= List.length ticks.
Proof.
  destruct (waitForPodCompletion_cases pod ticks st)
    as [[_ E]|(pre & t & post & -> & _ & _ & E)]; rewrite E; simpl.
  - eexists. split; [reflexivity|]. split;
      [apply ofWatcher_watched | apply calls_isGet_watched_le].
  - eexists. split; [reflexivity|]. split.
    + apply Forall_app. split; [apply ofWatcher_watched | apply ofWatcher_onReturn].
    + rewrite calls_isGet_app, length_app. simpl.
      pose proof (calls_isGet_watched_le pod pre).
      pose proof (calls_isGet_onReturn_le pod t). lia.
Qed.

End WatcherEvents.

(** X10. When the context is done on a turn, [waitForPodCompletion]
    returns the error [context cancelled] on that turn without polling:
    after the turns on which it continued it makes no further call. *)
Theorem waitForPodCompletion_cancelled {Quantity : Type} (pod : Pod Quantity)
    (pre post : list Tick) (st : St) :
  forallb continues pre = true ->
  waitForPodCompletion pod (pre ++ CtxDone :: post) st =
    (extend st (watched pod pre), Done (Some ErrContextCancelled)).
Proof.
  intros Hpre. rewrite (waitForPodCompletion_prefix _ _ _ _ Hpre).
  rewrite waitForPodCompletion_return by reflexivity.
  simpl. now rewrite extend_nil.
Qed.

Lemma waitForPodCompletion_cancelled_witness :
  let pod : Pod string := podStatus "plex" "pms-elastic-transcoder-x7k2p" "" in
  let running := Timer (reported PodRunning) in
  waitForPodCompletion pod ([running; running] ++ CtxDone :: [Timer (reported PodSucceeded)])
    {| trace := []; defers := [] |} =
    ({| trace := [CallGet "plex" "pms-elastic-transcoder-x7k2p";
                  CallGet "plex" "pms-elastic-transcoder-x7k2p"];
        defers := [] |}, Done (Some ErrContextCancelled)).
Proof.
  intros pod running.
  refine (waitForPodCompletion_cancelled pod [running; running]
            [Timer (reported PodSucceeded)] _ _).
  reflexivity.
Defined.

(** X11. A poll that observes a phase outside the five declared values
    (the empty phase of a pod not yet reported on, say) makes the call and
    goes on to the next turn: no warning, no return. *)
Theorem waitForPodCompletion_other_phase {Quantity : Type} (pod pod' : Pod Quantity)
    (rest : list Tick) (st : St) :
  Phase pod' <> PodPending -> Phase pod' <> PodRunning -> Phase pod' <> PodUnknown ->
  Phase pod' <> PodFailed -> Phase pod' <> PodSucceeded ->
  waitForPodCompletion pod (Timer (Returned pod') :: rest) st =
    waitForPodCompletion pod rest
      (extend st [CallGet (pod_Namespace pod) (pod_Name pod)]).
Proof.
  intros HP HR HU HF HS.
  apply String.eqb_neq in HU, HF, HS.
  rewrite waitForPodCompletion_continue by (simpl; now rewrite HF, HS).
  simpl. now rewrite HU.
Qed.

Lemma waitForPodCompletion_other_phase_witness :
  let pod : Pod string := podStatus "plex" "pms-elastic-transcoder-x7k2p" "" in
  waitForPodCompletion pod [Timer (reported ""); Timer (reported PodSucceeded)]
    {| trace := []; defers := [] |} =
  waitForPodCompletion pod [Timer (reported PodSucceeded)]
    (extend {| trace := []; defers := [] |}
       [CallGet (pod_Namespace pod) (pod_Name pod)]).
Proof.
  intros pod.
  refine (waitForPodCompletion_other_phase pod
            (podStatus "plex" "pms-elastic-transcoder-x7k2p" "") _ _ _ _ _ _ _);
    discriminate.
Defined.

(** X12. The watcher has no timeout of its own: it is still waiting after
    the given turns exactly when every one of them is a poll that observes
    a phase other than [Failed] and [Succeeded], and it has then polled
    once per turn. *)
Theorem waitForPodCompletion_waits {Quantity : Type} (pod : Pod Quantity)
    (ticks : list Tick) (st : St) :
  (snd (waitForPodCompletion pod ticks st) = Blocked <->
   forallb continues ticks = true) /\
  (forallb continues ticks = true ->
   fst (waitForPodCompletion pod ticks st) = extend st (watched pod ticks) /\
   calls isGet (watched pod ticks) = List.length ticks).
Proof.
  split.
  - destruct (waitForPodCompletion_cases pod ticks st)
      as [[Hall E]|(pre & t & post & -> & Hpre & Ht & E)]; rewrite E; simpl.
    + now split.
    + split; [discriminate|]. intros H. rewrite forallb_app in H. simpl in H.
      rewrite Ht in H. rewrite andb_false_r in H. discriminate.
  - intros Hall. split; [|now apply calls_isGet_watched].
    rewrite <- (app_nil_r ticks) at 1.
    rewrite (waitForPodCompletion_prefix _ _ _ _ Hall). reflexivity.
Qed.

Lemma waitForPodCompletion_waits_witness :
  let pod : Pod string := podStatus "plex" "pms-elastic-transcoder-x7k2p" "" in
  let ticks := [Timer (reported PodPending); Timer (reported PodUnknown);
                Timer (reported PodRunning)] in
  let st : St := {| trace := []; defers := [] |} in
  fst (waitForPodCompletion pod ticks st) = extend st (watched pod ticks) /\
  calls isGet (watched pod ticks) = 3.
Proof.
  intros pod ticks st.
  refine (proj2 (waitForPodCompletion_waits pod ticks st) _). reflexivity.
Defined.

(** X13. Whatever the answers, [waitForPodCompletion] only adds to the
    trace calls of [Get] for the namespace and name of the pod it was
    given, and unknown-state warnings; it makes at most one call per turn
    and leaves the deferred calls alone. *)
Theorem waitForPodCompletion_only_gets {Quantity : Type} (pod : Pod Quantity)
    (ticks : list Tick) (st : St) :
  exists evs,
    trace (fst (waitForPodCompletion pod ticks st)) = trace st ++ evs /\
    defers (fst (waitForPodCompletion pod ticks st)) = defers st /\
    Forall (fun e => e = CallGet (pod_Namespace pod) (pod_Name pod) \/
                     exists name, e = LogUnknownState name) evs /\
    calls isGet evs <= List.length ticks.
Proof.
  destruct (waitForPodCompletion_events pod ticks st) as (evs & E & F & L).
  exists evs. rewrite E. simpl. auto.
Qed.

(** ** The orchestrator, from start to end *)

Section RunFacts.

Context {Quantity : Type}.
Variable ParseQuantity : string -> option Quantity.
Implicit Types (w : World (Quantity:=Quantity)).

(** A run that gets as far as the wait: what [main] has read and done by
    then. *)
Lemma setup_Done_trace w st pod :
  setup ParseQuantity w {| trace := []; defers := [] |} = (st, Done pod) ->
  exists args cwd pod0,
    rewriteArgs (pmsInternalAddress (envConfig w)) (osArgs w) = Ok args /\
    getwd w = Returned cwd /\
    generatePod ParseQuantity (setDefaults (envConfig w)) cwd (PLEX_UID w) (PLEX_GID w)
      (osEnviron w) args = Ok pod0 /\
    createPod w pod0 = Returned pod /\
    st = {| trace := [CallCreate (namespace (setDefaults (envConfig w))) pod0;
                      LogStartedPod (pod_Name pod)];
            defers := [CallCancel] |}.
Proof.
  unfold setup, bindM, defer, liftR, orFatal, emit, ret, stop, rewriteEnv. simpl.
  destruct (rewriteArgs _ _) as [args|]; [|discriminate].
  destruct (getwd w) as [cwd|]; [|discriminate].
  destruct (buildConfig w); [discriminate|].
  destruct (newForConfig w); [discriminate|].
  destruct (generatePod _ _ _ _ _ _ _) as [pod0|] eqn:G; [|discriminate]. simpl.
  destruct (createPod w pod0) as [pod1|] eqn:C; [|discriminate].
  intros [= <- <-]. exists args, cwd, pod0. now rewrite C.
Qed.

(** A run that stops before the wait: at most the create call was made. *)
Lemma setup_Stop w st x :
  setup ParseQuantity w {| trace := []; defers := [] |} = (st, Stop x) ->
  defers st = [CallCancel] /\
  (trace st = [] \/
   exists pod0 msg,
     trace st = [CallCreate (namespace (setDefaults (envConfig w))) pod0] /\
     createPod w pod0 = Errored msg /\ x = Fatal (FatalCreatePod (ErrExternal msg))).
Proof.
  unfold setup, bindM, defer, liftR, orFatal, emit, ret, stop, rewriteEnv. simpl.
  destruct (rewriteArgs _ _) as [args|]; [|intros [= <- <-]; auto].
  destruct (getwd w) as [cwd|]; [|intros [= <- <-]; auto].
  destruct (buildConfig w); [intros [= <- <-]; auto|].
  destruct (newForConfig w); [intros [= <- <-]; auto|].
  destruct (generatePod _ _ _ _ _ _ _) as [pod0|] eqn:G; [|intros [= <- <-]; auto]. simpl.
  destruct (createPod w pod0) as [pod1|msg] eqn:C; [discriminate|].
  intros [= <- <-]. split; [reflexivity|]. right. now exists pod0, msg.
Qed.

Lemma awaitOutcome_events w pod st st' r :
  awaitOutcome w pod st = (st', r) ->
  exists evs, st' = extend st evs /\ Forall (ofWatcher pod) evs.
Proof.
  unfold awaitOutcome, SetupSignalHandler, bindM, ret. intros H.
  destruct (stopAfter w) as [n|].
  - destruct (waitForPodCompletion_events pod (Timer <$> take n (polls w)) st)
      as (evs & E & F & _).
    destruct (waitForPodCompletion pod _ st) as [st1 [err| |]];
      simpl in E; injection H as <- _; now exists evs.
  - destruct (waitForPodCompletion_events pod (Timer <$> polls w) st)
      as (evs & E & F & _).
    destruct (waitForPodCompletion pod _ st) as [st1 [err| |]];
      simpl in E; injection H as <- _; now exists evs.
Qed.

(** The whole run, when the wait reaches an outcome. *)
Lemma run_full w selected :
  outcome ParseQuantity w = Some selected ->
  exists args cwd pod0 pod evs,
    rewriteArgs (pmsInternalAddress (envConfig w)) (osArgs w) = Ok args /\
    getwd w = Returned cwd /\
    generatePod ParseQuantity (setDefaults (envConfig w)) cwd (PLEX_UID w) (PLEX_GID w)
      (osEnviron w) args = Ok pod0 /\
    createPod w pod0 = Returned pod /\
    Forall (ofWatcher pod) evs /\
    run ParseQuantity w =
      let ns := namespace (setDefaults (envConfig w)) in
      let name := pod_Name pod in
      match selected, logsStream w, deletePod w with
      | WaitReturned (Some err), Errored msg, _ =>
          ([CallCreate ns pod0; LogStartedPod name] ++ evs ++
           [LogWaitError err; CallGetLogs ns name],
           Stop (Fatal (FatalGetLogs (ErrExternal msg))))
      | WaitReturned (Some err), Returned (Errored msg), _ =>
          ([CallCreate ns pod0; LogStartedPod name] ++ evs ++
           [LogWaitError err; CallGetLogs ns name; CallReadAll],
           Stop (Fatal (FatalReadLogs (ErrExternal msg))))
      | WaitReturned (Some err), Returned (Returned logs), Some msg =>
          ([CallCreate ns pod0; LogStartedPod name] ++ evs ++
           [LogWaitError err; CallGetLogs ns name; CallReadAll; LogPodLogs logs;
            LogCleaningUp; CallDelete ns name],
           Stop (Fatal (FatalCleanup (ErrExternal msg))))
      | WaitReturned (Some err), Returned (Returned logs), None =>
          ([CallCreate ns pod0; LogStartedPod name] ++ evs ++
           [LogWaitError err; CallGetLogs ns name; CallReadAll; LogPodLogs logs;
            LogCleaningUp; CallDelete ns name; CallCloseLogs; CallCancel],
           Done tt)
      | WaitReturned None, _, Some msg =>
          ([CallCreate ns pod0; LogStartedPod name] ++ evs ++
           [LogCleaningUp; CallDelete ns name],
           Stop (Fatal (FatalCleanup (ErrExternal msg))))
      | WaitReturned None, _, None =>
          ([CallCreate ns pod0; LogStartedPod name] ++ evs ++
           [LogCleaningUp; CallDelete ns name; CallCancel], Done tt)
      | StopRequested, _, Some msg =>
          ([CallCreate ns pod0; LogStartedPod name] ++ evs ++
           [LogExitRequested; LogCleaningUp; CallDelete ns name],
           Stop (Fatal (FatalCleanup (ErrExternal msg))))
      | StopRequested, _, None =>
          ([CallCreate ns pod0; LogStartedPod name] ++ evs ++
           [LogExitRequested; LogCleaningUp; CallDelete ns name; CallCancel], Done tt)
      end.
Proof.
  unfold outcome. intros H.
  destruct (setup ParseQuantity w _) as [st1 [pod| |]] eqn:E1; try discriminate.
  destruct (awaitOutcome w pod st1) as [st2 [sel| |]] eqn:E2; try discriminate.
  injection H as ->.
  destruct (setup_Done_trace _ _ _ E1) as (args & cwd & pod0 & HA & HW & HG & HC & ->).
  destruct (awaitOutcome_events _ _ _ _ _ E2) as (evs & -> & F).
  exists args, cwd, pod0, pod, evs. do 5 (split; [assumption|]).
  unfold run, main. unfold bindM at 1. rewrite E1. unfold bindM at 1. rewrite E2.
  unfold afterSelect, dumpLogs, cleanup, bindM, emit, defer, orFatal, ret, stop, extend.
  destruct selected as [[err|]|]; simpl.
  - destruct (logsStream w) as [[logs|msg]|msg]; simpl;
      [destruct (deletePod w); simpl| |]; rewrite <- ?app_assoc; reflexivity.
  - destruct (logsStream w) as [[logs|msg]|msg]; destruct (deletePod w); simpl;
      rewrite <- ?app_assoc; reflexivity.
  - destruct (logsStream w) as [[logs|msg]|msg]; destruct (deletePod w); simpl;
      rewrite <- ?app_assoc; reflexivity.
Qed.

Lemma namespace_setDefaults (cfg : Config) :
  namespace (setDefaults cfg) = namespace cfg.
Proof. unfold setDefaults. now destruct (String.eqb (limitCPU cfg) ""). Qed.

Lemma setup_not_Blocked w st :
  setup ParseQuantity w {| trace := []; defers := [] |} <> (st, Blocked).
Proof.
  unfold setup, bindM, defer, liftR, orFatal, emit, ret, stop, rewriteEnv. simpl.
  destruct (rewriteArgs _ _) as [args|]; [|discriminate].
  destruct (getwd w) as [cwd|]; [|discriminate].
  destruct (buildConfig w); [discriminate|].
  destruct (newForConfig w); [discriminate|].
  destruct (generatePod _ _ _ _ _ _ _) as [pod0|]; [|discriminate]. simpl.
  destruct (createPod w pod0); discriminate.
Qed.

Lemma awaitOutcome_not_Stop w pod st st' x :
  awaitOutcome w pod st <> (st', Stop x).
Proof.
  unfold awaitOutcome, SetupSignalHandler, bindM, ret.
  destruct (stopAfter w) as [n|].
  - destruct (waitForPodCompletion_cases pod (Timer <$> take n (polls w)) st)
      as [[_ E]|(pre & t & post & _ & _ & _ & E)]; rewrite E; discriminate.
  - destruct (waitForPodCompletion_cases pod (Timer <$> polls w) st)
      as [[_ E]|(pre & t & post & _ & _ & _ & E)]; rewrite E; discriminate.
Qed.

(** A run that ends without an outcome of the wait stopped in the setup. *)
Lemma run_no_outcome w :
  outcome ParseQuantity w = None ->
  snd (run ParseQuantity w) <> Blocked ->
  exists st x,
    setup ParseQuantity w {| trace := []; defers := [] |} = (st, Stop x) /\
    run ParseQuantity w =
      (trace st ++ match x with Panic _ => defers st | Fatal _ => [] end, Stop x).
Proof.
  unfold outcome, run, main. intros H NB.
  destruct (setup ParseQuantity w _) as [st1 [pod|x|]] eqn:E1.
  - destruct (awaitOutcome w pod st1) as [st2 [sel|x|]] eqn:E2; [discriminate| |].
    + now apply awaitOutcome_not_Stop in E2.
    + exfalso. apply NB. unfold bindM at 1. rewrite E1. unfold bindM at 1.
      now rewrite E2.
  - exists st1, x. split; [reflexivity|]. unfold bindM at 1. rewrite E1.
    destruct x; [reflexivity|]. now rewrite app_nil_r.
  - now apply setup_not_Blocked in E1.
Qed.

End RunFacts.

(** X14. In a run in which the wait reaches an outcome, every call on the
    cluster is made for the one pod of the run: the create call submits the
    built pod in the configured namespace, every status call asks for the
    namespace and name the cluster gave the created pod, and the log and
    delete calls name that pod in the configured namespace. *)
Theorem main_one_pod {Quantity : Type} (ParseQuantity : string -> option Quantity)
    (w : World) (selected : Selected) :
  outcome ParseQuantity w = Some selected ->
  exists pod0 pod,
    createPod w pod0 = Returned pod /\
    forall e, e ∈ fst (run ParseQuantity w) ->
      (isCreate e = true -> e = CallCreate (namespace (envConfig w)) pod0) /\
      (isGet e = true -> e = CallGet (pod_Namespace pod) (pod_Name pod)) /\
      (isGetLogs e = true -> e = CallGetLogs (namespace (envConfig w)) (pod_Name pod)) /\
      (isDelete e = true -> e = CallDelete (namespace (envConfig w)) (pod_Name pod)).
Proof.
  intros H.
  destruct (run_full _ _ _ H) as (args & cwd & pod0 & pod & evs & _ & _ & _ & HC & F & E).
  exists pod0, pod. split; [exact HC|].
  rewrite E, namespace_setDefaults. clear E.
  set (P := fun e : Event =>
    (isCreate e = true -> e = CallCreate (namespace (envConfig w)) pod0) /\
    (isGet e = true -> e = CallGet (pod_Namespace pod) (pod_Name pod)) /\
    (isGetLogs e = true -> e = CallGetLogs (namespace (envConfig w)) (pod_Name pod)) /\
    (isDelete e = true -> e = CallDelete (namespace (envConfig w)) (pod_Name pod))).
  assert (Hevs : Forall P evs).
  { eapply Forall_impl; [exact F|]. intros e [-> | [name ->]]; unfold P; simpl;
      repeat split; first [discriminate | reflexivity]. }
  assert (Hfix : forall l : list Event,
            forallb (fun e => match e with
                              | CallCreate ns p => false | CallGet _ _ => false
                              | CallGetLogs ns n | CallDelete ns n =>
                                  String.eqb ns (namespace (envConfig w)) &&
                                  String.eqb n (pod_Name pod)
                              | _ => true end) l = true -> Forall P l).
  { intros l Hl. apply Forall_forall. intros e He.
    rewrite forallb_forall in Hl. apply list_elem_of_In in He. specialize (Hl e He).
    destruct e; unfold P; simpl; try discriminate;
      try (repeat split; first [discriminate | reflexivity]);
      apply andb_true_iff in Hl as [H1 H2];
      apply String.eqb_eq in H1, H2; subst;
      repeat split; first [discriminate | reflexivity]. }
  assert (Hhead : Forall P [CallCreate (namespace (envConfig w)) pod0;
                            LogStartedPod (pod_Name pod)]).
  { repeat constructor; unfold P; simpl; repeat split;
      first [discriminate | reflexivity]. }
  intros e He. cut (P e); [trivial|]. revert e He. apply Forall_forall.
  destruct selected as [[err|]|];
    destruct (logsStream w) as [[logs|msg]|msg]; destruct (deletePod w); simpl fst;
    match goal with
    | |- Forall _ (?a :: ?b :: ?l) => change (Forall P ([a; b] ++ l))
    end;
    (apply Forall_app; split; [exact Hhead|]);
    (apply Forall_app; split; [exact Hevs|]);
    apply Hfix; simpl; rewrite ?String.eqb_refl; reflexivity.
Qed.

Lemma main_one_pod_witness :
  let w := cluster [reported PodRunning; reported PodFailed] None
             (Returned (Returned "Conversion failed!")) None in
  exists pod0 pod,
    createPod w pod0 = Returned pod /\
    forall e, e ∈ fst (run keepText w) ->
      (isCreate e = true -> e = CallCreate (namespace (envConfig w)) pod0) /\
      (isGet e = true -> e = CallGet (pod_Namespace pod) (pod_Name pod)) /\
      (isGetLogs e = true -> e = CallGetLogs (namespace (envConfig w)) (pod_Name pod)) /\
      (isDelete e = true -> e = CallDelete (namespace (envConfig w)) (pod_Name pod)).
Proof.
  intros w.
  refine (main_one_pod keepText w
            (WaitReturned (Some (ErrPodFailed "pms-elastic-transcoder-x7k2p"))) _).
  reflexivity.
Defined.

(** X15. How a run in which the wait reaches an outcome ends. A log
    stream that cannot be opened or read after a wait error is fatal;
    otherwise an error of the delete is fatal; otherwise [main] returns,
    also when the pod failed. The deferred [cancel] is run exactly when
    [main] returns. *)
Theorem main_ending {Quantity : Type} (ParseQuantity : string -> option Quantity)
    (w : World) (selected : Selected) :
  outcome ParseQuantity w = Some selected ->
  snd (run ParseQuantity w) =
    match selected, logsStream w, deletePod w with
    | WaitReturned (Some _), Errored msg, _ =>
        Stop (Fatal (FatalGetLogs (ErrExternal msg)))
    | WaitReturned (Some _), Returned (Errored msg), _ =>
        Stop (Fatal (FatalReadLogs (ErrExternal msg)))
    | _, _, Some msg => Stop (Fatal (FatalCleanup (ErrExternal msg)))
    | _, _, None => Done tt
    end /\
  (CallCancel ∈ fst (run ParseQuantity w) <-> snd (run ParseQuantity w) = Done tt).
Proof.
  intros H.
  destruct (run_full _ _ _ H) as (args & cwd & pod0 & pod & evs & _ & _ & _ & _ & F & E).
  rewrite E. clear E.
  assert (Hevs : ~ In CallCancel evs).
  { intros Hin. apply list_elem_of_In in Hin. rewrite Forall_forall in F.
    destruct (F _ Hin) as [Hc | [name Hc]]; discriminate Hc. }
  destruct selected as [[err|]|];
    destruct (logsStream w) as [[logs|msg]|msg]; destruct (deletePod w); simpl;
    (split; [reflexivity|]);
    rewrite list_elem_of_In; simpl; rewrite in_app_iff; simpl;
    (split; [intros Hin | intros Hd]);
    first [ reflexivity
          | discriminate Hd
          | tauto
          | exfalso; intuition discriminate ].
Qed.

Lemma main_ending_witness :
  let w := cluster [reported PodRunning; reported PodFailed] None
             (Returned (Returned "Conversion failed!")) None in
  snd (run keepText w) = Done tt /\
  (CallCancel ∈ fst (run keepText w) <-> snd (run keepText w) = Done tt).
Proof.
  intros w.
  refine (main_ending keepText w
            (WaitReturned (Some (ErrPodFailed "pms-elastic-transcoder-x7k2p"))) _).
  reflexivity.
Defined.

(** X16. In a run in which the wait reaches an outcome, the first thing
    done is the one create call, and the pod it submits has a single
    container whose command is the argument vector as [rewriteArgs] left
    it, whose environment is the translation of the process environment,
    whose working directory is that of the process and whose image is the
    configured one; it runs as the parsed user and group and is never
    restarted. *)
Theorem main_submits {Quantity : Type} (ParseQuantity : string -> option Quantity)
    (w : World) (selected : Selected) :
  outcome ParseQuantity w = Some selected ->
  exists pod0 c u g,
    head (fst (run ParseQuantity w)) = Some (CallCreate (namespace (envConfig w)) pod0) /\
    calls isCreate (fst (run ParseQuantity w)) = 1 /\
    Containers pod0 = [c] /\
    rewriteArgs (pmsInternalAddress (envConfig w)) (osArgs w) = Ok (Command c) /\
    toCoreV1EnvVar (osEnviron w) = Ok (Env c) /\
    getwd w = Returned (WorkingDir c) /\
    Image c = pmsImage (envConfig w) /\
    strToi64 (PLEX_UID w) = Ok u /\ RunAsUser pod0 = Some u /\
    strToi64 (PLEX_GID w) = Ok g /\ RunAsGroup pod0 = Some g /\
    RestartPolicy pod0 = RestartPolicyNever.
Proof.
  intros H.
  destruct (run_full _ _ _ H) as (args & cwd & pod0 & pod & evs & HA & HW & HG & _ & F & E).
  unfold generatePod in HG.
  destruct (toCoreV1EnvVar (osEnviron w)) as [ev|]; [|discriminate]. simpl in HG.
  destruct (strToi64 (PLEX_UID w)) as [u|]; [|discriminate]. simpl in HG.
  destruct (strToi64 (PLEX_GID w)) as [g|]; [|discriminate]. simpl in HG.
  destruct (MustParse ParseQuantity _) as [q|]; [|discriminate].
  injection HG as <-. eexists _, _, u, g.
  assert (Hevs : calls isCreate evs = 0).
  { clear E. induction evs as [|e evs IH]; [reflexivity|].
    inversion F as [|? ? He Hrest]; subst. unfold calls in *. simpl.
    destruct He as [-> | [name ->]]; simpl; now apply IH. }
  rewrite E, namespace_setDefaults.
  split.
  - destruct selected as [[err|]|];
      destruct (logsStream w) as [[logs|msg]|msg]; destruct (deletePod w); reflexivity.
  - split.
    + destruct selected as [[err|]|];
        destruct (logsStream w) as [[logs|msg]|msg]; destruct (deletePod w);
        unfold calls in *; simpl; rewrite List.filter_app, length_app, Hevs; reflexivity.
    + simpl. rewrite HA, HW. repeat split; try reflexivity.
      unfold setDefaults. now destruct (String.eqb (limitCPU (envConfig w)) "").
Qed.

Lemma main_submits_witness :
  let w := cluster [reported PodSucceeded] None (Returned (Returned "")) None in
  exists pod0 c u g,
    head (fst (run keepText w)) = Some (CallCreate (namespace (envConfig w)) pod0) /\
    calls isCreate (fst (run keepText w)) = 1 /\
    Containers pod0 = [c] /\
    rewriteArgs (pmsInternalAddress (envConfig w)) (osArgs w) = Ok (Command c) /\
    toCoreV1EnvVar (osEnviron w) = Ok (Env c) /\
    getwd w = Returned (WorkingDir c) /\
    Image c = pmsImage (envConfig w) /\
    strToi64 (PLEX_UID w) = Ok u /\ RunAsUser pod0 = Some u /\
    strToi64 (PLEX_GID w) = Ok g /\ RunAsGroup pod0 = Some g /\
    RestartPolicy pod0 = RestartPolicyNever.
Proof.
  intros w. refine (main_submits keepText w (WaitReturned None) _). reflexivity.
Defined.

(** X17. A run that ends without the wait having reached an outcome ended
    before the pod existed: it makes no status, log or delete call and at
    most the one create call, which then failed; and it runs the deferred
    [cancel] only when it ends in a panic. *)
Theorem main_stops_early {Quantity : Type} (ParseQuantity : string -> option Quantity)
    (w : World) :
  outcome ParseQuantity w = None ->
  snd (run ParseQuantity w) <> Blocked ->
  calls isGet (fst (run ParseQuantity w)) = 0 /\
  calls isGetLogs (fst (run ParseQuantity w)) = 0 /\
  calls isDelete (fst (run ParseQuantity w)) = 0 /\
  (fst (run ParseQuantity w) = [] \/
   (exists p, run ParseQuantity w = ([CallCancel], Stop (Panic p))) \/
   exists pod0 msg,
     createPod w pod0 = Errored msg /\
     run ParseQuantity w =
       ([CallCreate (namespace (envConfig w)) pod0],
        Stop (Fatal (FatalCreatePod (ErrExternal msg))))).
Proof.
  intros H NB. destruct (run_no_outcome _ _ H NB) as (st & x & E & R).
  destruct (setup_Stop _ _ _ _ E) as [D [T | (pod0 & msg & T & C & ->)]].
  - rewrite R, T, D. destruct x as [p|m]; simpl.
    + repeat split; try reflexivity. right. left. now exists p.
    + repeat split; try reflexivity. now left.
  - rewrite R, T. rewrite namespace_setDefaults. simpl.
    repeat split; try reflexivity. right. right. now exists pod0, msg.
Qed.

Lemma main_stops_early_witness :
  let w := {| osEnviron := ["HOME=/config"];
              osArgs := ["Plex Transcoder"; "-i"; "in.mkv"; "-loglevel"];
              envConfig := {| dataPVC := "data"; configPVC := "config";
                              transcodePVC := "transcode"; namespace := "plex";
                              pmsImage := "plexinc/pms-docker:latest";
                              pmsInternalAddress := "http://plex:32400";
                              limitCPU := "" |};
              PLEX_UID := "1000"; PLEX_GID := "1000";
              getwd := Returned "/transcode";
              buildConfig := None; newForConfig := None;
              createPod := fun pod => Returned (created pod);
              polls := [reported PodSucceeded]; stopAfter := None;
              logsStream := Returned (Returned ""); deletePod := None |} in
  run keepText w = ([CallCancel], Stop (Panic (IndexOutOfRange 4 4))) /\
  calls isGet (fst (run keepText w)) = 0 /\
  calls isGetLogs (fst (run keepText w)) = 0 /\
  calls isDelete (fst (run keepText w)) = 0.
Proof.
  intros w. split; [reflexivity|].
  destruct (main_stops_early keepText w) as (G & L & D & _);
    [reflexivity | discriminate | auto].
Defined.
